(** * Range negotiation for the audio stream route

    A shallow embedding of [src/app/api/audio/stream/route.ts]: the
    [Range] header parser, the chunk optimizer, the in-memory rate limiter
    and the [GET] handler that assembles the response, followed by the
    properties the specification states about them.

    Numbers.  The source computes with JavaScript numbers.  Every number
    that occurs here is an integer (byte offsets, sizes, counters and
    millisecond timestamps), and doubles are exact on integers of magnitude
    up to 2^53, so numbers are modelled by [Z].  [parseInt] on a digit
    string beyond that magnitude rounds monotonically, so its comparisons
    against an object size below 2^53 come out as they do in [Z].

    Strings.  Header values are [string]s; the regular expression of
    [parseRange] only inspects the ASCII characters [bytes=], [-] and the
    digits, so bytes are as good as UTF-16 code units for it. *)

From Stdlib Require Import ZArith Lia Bool Ascii String.
From stdpp Require Import base option gmap strings fin_maps.

Local Open Scope Z_scope.

(** ** Characters, digit strings and decimal rendering *)

Module Js.

(** [\d] without the unicode flag: the ten ASCII digits. *)
Definition isDigit (c : ascii) : bool :=
  let n := nat_of_ascii c in (48 <=? n)%nat && (n <=? 57)%nat.

Definition digitValue (c : ascii) : Z := Z.of_nat (nat_of_ascii c) - 48.

Definition digitChar (d : Z) : ascii := ascii_of_nat (Z.to_nat (48 + d)).

Fixpoint allDigits (s : string) : bool :=
  match s with
  | EmptyString => true
  | String c s' => isDigit c && allDigits s'
  end.

(** A string is truthy in a condition unless it is empty. *)
Definition truthy (s : string) : bool :=
  match s with
  | EmptyString => false
  | String _ _ => true
  end.

(** [parseInt(s, 10)] on a string of digits (all the source passes to it):
    the usual left-to-right accumulation. *)
Fixpoint parseDigits (acc : Z) (s : string) : Z :=
  match s with
  | EmptyString => acc
  | String c s' => parseDigits (10 * acc + digitValue c) s'
  end.

Definition parseInt (s : string) : Z := parseDigits 0 s.

(** Template-literal rendering of an integer: decimal digits, no sign for
    a non-negative number, no leading zero.  The fuel bounds the number of
    digits (one binary digit is spent for each decimal one). *)
Fixpoint digitsOf (fuel : nat) (n : Z) (acc : string) : string :=
  match fuel with
  | O => acc
  | S fuel' =>
      let acc' := String (digitChar (n mod 10)) acc in
      if n <? 10 then acc' else digitsOf fuel' (n / 10) acc'
  end.

Definition digitFuel (n : Z) : nat := S (Z.to_nat (Z.log2 n)).

Definition numToString (n : Z) : string :=
  if n <? 0
  then String "-" (digitsOf (digitFuel (- n)) (- n) EmptyString)
  else digitsOf (digitFuel n) n EmptyString.

End Js.

(** ** The regular expression of [parseRange]

    The pattern is the literal [bytes=], a capture group of zero or more
    digits, the literal [-] and a second capture group of zero or more
    digits.

    [String.prototype.match] with a non-global expression searches the
    subject from left to right and reports the first position at which the
    pattern matches.  At one position the pattern is deterministic: the
    literal [bytes=], the longest run of digits (giving back digits cannot
    help, a digit is not [-]), the literal [-], and again the longest run
    of digits.  Nothing anchors the pattern to the ends of the subject. *)

Module Regex.

Fixpoint stripPrefix (p s : string) : option string :=
  match p with
  | EmptyString => Some s
  | String a p' =>
      match s with
      | EmptyString => None
      | String b s' => if Ascii.eqb a b then stripPrefix p' s' else None
      end
  end.

(** The longest run of digits at the head of [s], and what follows it. *)
Fixpoint spanDigits (s : string) : string * string :=
  match s with
  | EmptyString => (EmptyString, EmptyString)
  | String c s' =>
      if Js.isDigit c
      then let '(ds, rest) := spanDigits s' in (String c ds, rest)
      else (EmptyString, s)
  end.

(** The pattern tried at the head of [s]: the two capture groups. *)
Definition matchHere (s : string) : option (string * string) :=
  match stripPrefix "bytes=" s with
  | None => None
  | Some r =>
      let '(g1, r1) := spanDigits r in
      match r1 with
      | String c r2 =>
          if Ascii.eqb c "-"
          then let '(g2, _) := spanDigits r2 in Some (g1, g2)
          else None
      | EmptyString => None
      end
  end.

(** [range.match(pattern)]: the groups of the leftmost match. *)
Fixpoint search (s : string) : option (string * string) :=
  match matchHere s with
  | Some groups => Some groups
  | None =>
      match s with
      | EmptyString => None
      | String _ s' => search s'
      end
  end.

End Regex.

(** ** [parseRange] *)

Record ByteRange := mkRange { start : Z; end_ : Z }.

Definition parseRange (range : string) (fileSize : Z) : option ByteRange :=
  match Regex.search range with
  | None => None
  | Some (m1, m2) =>
      let start := if Js.truthy m1 then Js.parseInt m1 else 0 in
      let end_ := if Js.truthy m2 then Js.parseInt m2 else fileSize - 1 in
      if (start >=? fileSize) || (end_ >=? fileSize) || (start >? end_)
      then None
      else Some (mkRange start end_)
  end.

(** ** [optimizeRange] *)

Definition optimizeRange (requestedRange : ByteRange) (fileSize : Z)
    (isFirstRequest : bool) : ByteRange :=
  if isFirstRequest && (start requestedRange =? 0) then
    let initialPlaybackSize :=
      if fileSize <? 5 * 1024 * 1024 then Z.min (1024 * 1024) (fileSize - 1)
      else if fileSize <? 15 * 1024 * 1024
           then Z.min (2 * 1024 * 1024) (fileSize - 1)
           else Z.min (3 * 1024 * 1024) (fileSize - 1) in
    mkRange 0 initialPlaybackSize
  else
    let requestedSize := end_ requestedRange - start requestedRange + 1 in
    let optimalChunkSize :=
      if fileSize <? 5 * 1024 * 1024 then 512 * 1024
      else if fileSize <? 15 * 1024 * 1024 then 1024 * 1024
           else 1536 * 1024 in
    if (requestedSize <? optimalChunkSize)
       && (end_ requestedRange <? fileSize - 1)
    then
      let newEnd :=
        Z.min (start requestedRange + optimalChunkSize - 1) (fileSize - 1) in
      mkRange (start requestedRange) newEnd
    else requestedRange.

(** ** The rate limiter

    [rateLimitMap] is a module-level [Map]; the functions below take it and
    return it.  [Date.now()] is read once by [cleanupRateLimit] and once
    more by [checkRateLimit]: both readings are arguments.  Deleting the
    entry under the cursor while iterating over a [Map] is well defined and
    every entry is visited, so the sweep is a filter. *)

Record RateLimitEntry := mkEntry { count : Z; resetTime : Z }.

Definition cleanupRateLimit (now : Z) (rateLimitMap : gmap string RateLimitEntry)
    : gmap string RateLimitEntry :=
  filter (fun kv : string * RateLimitEntry => ~ (now > resetTime kv.2))
         rateLimitMap.

Definition checkRateLimit (nowCleanup now : Z) (identifier : string)
    (rateLimitMap : gmap string RateLimitEntry)
    : bool * gmap string RateLimitEntry :=
  let rateLimitMap := cleanupRateLimit nowCleanup rateLimitMap in
  let windowMs := 60 * 1000 in
  let maxRequests := 30 in
  match rateLimitMap !! identifier with
  | None =>
      (true, <[identifier := mkEntry 1 (now + windowMs)]> rateLimitMap)
  | Some current =>
      if now >? resetTime current then
        (true, <[identifier := mkEntry 1 (now + windowMs)]> rateLimitMap)
      else if count current >=? maxRequests then (false, rateLimitMap)
      else
        (true,
         <[identifier := mkEntry (count current + 1) (resetTime current)]>
           rateLimitMap)
  end.

(** A sequence of calls, each with its two clock readings and identifier:
    the answers in order and the table left behind. *)
Fixpoint checkRateLimitCalls (calls : list (Z * Z * string))
    (rateLimitMap : gmap string RateLimitEntry)
    : list bool * gmap string RateLimitEntry :=
  match calls with
  | [] => ([], rateLimitMap)
  | (nowCleanup, now, identifier) :: calls' =>
      let '(admitted, rateLimitMap') :=
        checkRateLimit nowCleanup now identifier rateLimitMap in
      let '(rest, final) := checkRateLimitCalls calls' rateLimitMap' in
      (admitted :: rest, final)
  end.

(** The answers given to one identifier among the answers to [calls]. *)
Fixpoint answersFor (identifier : string) (calls : list (Z * Z * string))
    (answers : list bool) : list bool :=
  match calls, answers with
  | (_, _, who) :: calls', answer :: answers' =>
      if String.eqb who identifier
      then answer :: answersFor identifier calls' answers'
      else answersFor identifier calls' answers'
  | _, _ => []
  end.

(** ** The [GET] handler *)

(** The headers set from the policy branches. *)
Definition cacheControl (isFirstRequest : bool) (fileSize : Z)
    (isPartialContent : bool) : string :=
  if isFirstRequest && (fileSize >? 10 * 1024 * 1024)
  then "public, max-age=7200, stale-while-revalidate=3600"
  else if isPartialContent
       then "public, max-age=31536000, immutable"
       else "public, max-age=86400, stale-while-revalidate=3600".

(** [fileName.split('.').pop()]: what follows the last dot, or the whole
    name when it has none. *)
Fixpoint lastSegment (acc s : string) : string :=
  match s with
  | EmptyString => acc
  | String c s' =>
      if Ascii.eqb c "."
      then lastSegment EmptyString s'
      else lastSegment (acc +:+ String c EmptyString) s'
  end.

(** [toLowerCase] on the ASCII letters (the keys of [mimeTypes] are ASCII). *)
Definition lowerChar (c : ascii) : ascii :=
  let n := nat_of_ascii c in
  if (65 <=? n)%nat && (n <=? 90)%nat then ascii_of_nat (n + 32) else c.

Fixpoint toLowerCase (s : string) : string :=
  match s with
  | EmptyString => EmptyString
  | String c s' => String (lowerChar c) (toLowerCase s')
  end.

(** The five own keys of the [mimeTypes] object (a name whose extension is
    a property inherited from [Object.prototype] is outside this model). *)
Definition mimeTypes : gmap string string :=
  list_to_map
    [("mp3", "audio/mpeg"); ("wav", "audio/wav"); ("ogg", "audio/ogg");
     ("flac", "audio/flac"); ("m4a", "audio/mp4")]%string.

Definition orElse (s default : string) : string :=
  if Js.truthy s then s else default.

Definition contentTypeOf (fileName : string) (storageType : option string)
    : string :=
  let contentType := orElse (default EmptyString storageType) "audio/mpeg" in
  let ext := toLowerCase (lastSegment EmptyString fileName) in
  match mimeTypes !! ext with
  | Some mime => if Js.truthy ext && Js.truthy mime then mime else contentType
  | None => contentType
  end.

(** The storage service and the helpers the route imports.  A call either
    returns (an object or [null]) or throws.  [new NextResponse] checks the
    header values it is given and throws on one it does not accept:
    [validHeaderValue] is that check. *)
Inductive Outcome (A : Type) : Type :=
| Returned (a : option A)
| Thrown.
Arguments Returned {A} a.
Arguments Thrown {A}.

Record MediaInfo := mkMediaInfo { ContentLength : option Z }.

Record RangeOutput (B : Type) := mkRangeOutput {
  Body : option B;
  ContentType : option string
}.
Arguments mkRangeOutput {B} Body ContentType.
Arguments Body {B} r.
Arguments ContentType {B} r.

Record Env (B : Type) := mkEnv {
  getfileMediaInfo : string -> Outcome MediaInfo;
  getFileRange : string -> Z -> Z -> Outcome (RangeOutput B);
  getURL : string;
  encodeURIComponent : string -> string;
  validHeaderValue : string -> bool
}.
Arguments getfileMediaInfo {B} e fileName.
Arguments getFileRange {B} e fileName start end_.
Arguments getURL {B} e.
Arguments encodeURIComponent {B} e s.
Arguments validHeaderValue {B} e value.

(** What the handler reads of the request: the [file] query parameter and
    the [range] header, each [null] when absent. *)
Record Request := mkRequest {
  file : option string;
  range : option string
}.

Inductive ResponseBody (B : Type) : Type :=
| Json (error : string)
| Text (text : string)
| Stream (content : B).
Arguments Json {B} error.
Arguments Text {B} text.
Arguments Stream {B} content.

Record Response (B : Type) := mkResponse {
  status : Z;
  headers : gmap string string;
  body : ResponseBody B
}.
Arguments mkResponse {B} status headers body.
Arguments status {B} r.
Arguments headers {B} r.
Arguments body {B} r.

(** The handler's local variables once the range is settled. *)
Record Served := mkServed {
  servedStart : Z;
  servedEnd : Z;
  isPartialContent : bool;
  isFirstRequest : bool
}.

(** The branch on the [range] header; [None] is the 416 exit. *)
Definition settleRange (range : option string) (fileSize : Z) : option Served :=
  match range with
  | Some (String _ _ as header) =>
      match parseRange header fileSize with
      | None => None
      | Some parsedRange =>
          let isFirstRequest := start parsedRange =? 0 in
          let optimizedRange :=
            optimizeRange (mkRange (start parsedRange) (end_ parsedRange))
                          fileSize isFirstRequest in
          Some (mkServed (start optimizedRange) (end_ optimizedRange)
                         true isFirstRequest)
      end
  | _ =>
      let optimizedRange :=
        optimizeRange (mkRange 0 (fileSize - 1)) fileSize true in
      Some (mkServed (start optimizedRange) (end_ optimizedRange)
                     (end_ optimizedRange <? fileSize - 1) true)
  end.

Definition whenb (b : bool) (f : gmap string string -> gmap string string)
    (h : gmap string string) : gmap string string :=
  if b then f h else h.

(** The object literal [headers] starts from. *)
Definition baseHeaders (contentType contentLength cacheControl origin : string)
    : gmap string string :=
  list_to_map
    [("Content-Type", contentType);
     ("Content-Length", contentLength);
     ("Accept-Ranges", "bytes");
     ("Cache-Control", cacheControl);
     ("Access-Control-Allow-Origin", origin);
     ("X-Content-Type-Options", "nosniff");
     ("X-Frame-Options", "DENY");
     ("Referrer-Policy", "strict-origin-when-cross-origin");
     ("Content-Disposition", "inline")]%string.

Definition responseHeaders {B} (env : Env B) (fileName : string)
    (fileSize : Z) (sv : Served) (storageType : option string)
    : gmap string string :=
  let start := servedStart sv in
  let end_ := servedEnd sv in
  let contentLength := end_ - start + 1 in
  let contentRange :=
    "bytes " +:+ Js.numToString start +:+ "-" +:+ Js.numToString end_
      +:+ "/" +:+ Js.numToString fileSize in
  let headers :=
    baseHeaders (contentTypeOf fileName storageType)
                (Js.numToString contentLength)
                (cacheControl (isFirstRequest sv) fileSize
                              (isPartialContent sv))
                (orElse (getURL env) "*") in
  let headers :=
    whenb (isPartialContent sv && (end_ <? fileSize - 1))
      (fun h =>
         let nextChunkStart := end_ + 1 in
         let nextChunkEnd :=
           Z.min (nextChunkStart + contentLength - 1) (fileSize - 1) in
         <["X-Next-Range" :=
             "bytes=" +:+ Js.numToString nextChunkStart +:+ "-"
               +:+ Js.numToString nextChunkEnd]>
           (<["Link" :=
                "</api/audio/stream?file=" +:+ encodeURIComponent env fileName
                  +:+ ">; rel=prefetch; as=audio"]> h))
      headers in
  whenb (isPartialContent sv) (fun h => <["Content-Range" := contentRange]> h)
        headers.

Definition jsonError {B} (status : Z) (error : string) : Response B :=
  mkResponse status ∅ (Json error).

(** [new NextResponse(body, {status, headers})] goes through when every
    header value is accepted, and throws otherwise. *)
Definition acceptsHeaders {B} (env : Env B) (headers : gmap string string)
    : bool :=
  forallb (fun header : string * string => validHeaderValue env header.2)
          (map_to_list headers).

(** The handler proper.  The [catch] clause turns a throw inside the [try]
    block, of a storage call or of the construction of the streamed answer,
    into the generic 500 answer.  Only the headers the handler sets itself
    are recorded. *)
Definition respond {B} (env : Env B) (request : Request) : Response B :=
  match file request with
  | Some (String _ _ as fileName) =>
      match getfileMediaInfo env fileName with
      | Thrown => jsonError 500 "Internal server error"
      | Returned fileMetadata =>
          match fileMetadata ≫= ContentLength with
          | None | Some 0 => jsonError 500 "Unable to determine file size"
          | Some fileSize =>
              match settleRange (range request) fileSize with
              | None => mkResponse 416 ∅ (Text "Invalid range")
              | Some sv =>
                  match getFileRange env fileName
                          (servedStart sv) (servedEnd sv) with
                  | Thrown => jsonError 500 "Internal server error"
                  | Returned None => jsonError 404 "Audio file not found"
                  | Returned (Some response) =>
                      match Body response with
                      | None => jsonError 404 "Audio file not found"
                      | Some content =>
                          let headers :=
                            responseHeaders env fileName fileSize sv
                                            (ContentType response) in
                          if acceptsHeaders env headers
                          then mkResponse
                                 (if isPartialContent sv then 206 else 200)
                                 headers (Stream content)
                          else jsonError 500 "Internal server error"
                      end
                  end
              end
          end
      end
  | _ => jsonError 400 "Missing file parameter"
  end.

(** [GET] runs with the module-level [rateLimitMap] in scope; its body
    refers neither to the table nor to [checkRateLimit], so the table comes
    out as it went in. *)
Definition GET {B} (env : Env B) (request : Request)
    (rateLimitMap : gmap string RateLimitEntry)
    : Response B * gmap string RateLimitEntry :=
  (respond env request, rateLimitMap).

(** The path of [respond] that ends in a streamed answer: a named file
    whose size the storage reports, a range that settles, a storage answer
    with a body, and headers that [new NextResponse] accepts. *)
Definition Serves {B} (env : Env B) (request : Request) (fileName : string)
    (fileSize : Z) (sv : Served) (response : RangeOutput B) (content : B)
    : Prop :=
  file request = Some fileName
  /\ Js.truthy fileName = true
  /\ (exists fileMetadata,
        getfileMediaInfo env fileName = Returned (Some fileMetadata)
        /\ ContentLength fileMetadata = Some fileSize)
  /\ fileSize <> 0
  /\ settleRange (range request) fileSize = Some sv
  /\ getFileRange env fileName (servedStart sv) (servedEnd sv)
     = Returned (Some response)
  /\ Body response = Some content
  /\ acceptsHeaders env
       (responseHeaders env fileName fileSize sv (ContentType response))
     = true.

(** A header value without NUL, line feed or carriage return: what the
    Fetch standard asks of a value that has no white space around it. *)
Fixpoint plainHeaderValue (value : string) : bool :=
  match value with
  | EmptyString => true
  | String c value' =>
      let n := nat_of_ascii c in
      negb ((n =? 0)%nat || (n =? 10)%nat || (n =? 13)%nat)
      && plainHeaderValue value'
  end.

(** A storage holding one object of [size] bytes under every name. *)
Definition oneObject (size : Z) : Env unit :=
  mkEnv unit
    (fun _ => Returned (Some (mkMediaInfo (Some size))))
    (fun _ _ _ => Returned (Some (mkRangeOutput (Some tt) None)))
    EmptyString
    (fun s => s)
    plainHeaderValue.

(** ** The header grammar of the specification

    The specification describes the accepted headers as the single-range
    form, the whole header being [bytes=], a possibly missing start, [-]
    and a possibly missing end.  These predicates follow its words; they
    are compared with [parseRange] below. *)

Module Grammar.

Definition rangeText (ds de : string) : string :=
  "bytes=" +:+ ds +:+ "-" +:+ de.

(** The whole header is one range. *)
Definition wellFormed (header : string) : Prop :=
  exists ds de,
    Js.allDigits ds = true /\ Js.allDigits de = true
    /\ header = rangeText ds de.

(** A range written somewhere inside the header. *)
Definition occursAt (header pre ds de post : string) : Prop :=
  Js.allDigits ds = true /\ Js.allDigits de = true
  /\ header = pre +:+ rangeText ds de +:+ post.

Definition contains (header : string) : Prop :=
  exists pre ds de post, occursAt header pre ds de post.

Definition noLeadingDigit (s : string) : bool :=
  match s with
  | EmptyString => true
  | String c _ => negb (Js.isDigit c)
  end.

(** The first range written in the header, its end digits taken as far as
    they go. *)
Definition leftmost (header ds de : string) : Prop :=
  exists pre post,
    occursAt header pre ds de post
    /\ noLeadingDigit post = true
    /\ forall pre' ds' de' post',
         occursAt header pre' ds' de' post' ->
         (String.length pre <= String.length pre')%nat.

(** A bound as written: the number its digits denote, or the default when
    no digit is written. *)
Definition bound (digits : string) (default : Z) : Z :=
  if Js.truthy digits then Js.parseInt digits else default.

(** A bound as a client writes it. *)
Definition render (b : option Z) : string :=
  match b with
  | Some n => Js.numToString n
  | None => EmptyString
  end.

Definition unsatisfiable (start end_ objectSize : Z) : Prop :=
  start >= objectSize \/ end_ >= objectSize \/ start > end_.

End Grammar.

(** ** The cache table of the specification

    The three-way table of the specification, in its priority order. *)

Module CacheTable.

Definition policy (isFirstRequest : bool) (objectSize : Z)
    (isPartialContent : bool) : string :=
  if bool_decide (isFirstRequest = true /\ objectSize > 10 * 1024 * 1024)
  then "public, max-age=7200, stale-while-revalidate=3600"
  else if bool_decide (isPartialContent = true)
       then "public, max-age=31536000, immutable"
       else "public, max-age=86400, stale-while-revalidate=3600".

End CacheTable.

(** ** The [OPTIONS] handler

    The preflight answer has no body: its status and headers. *)



(** ** The R2 storage service

    [AudioStorageR2Service]: both methods send a [GetObjectCommand] through
    the S3 client and hand back what it resolves with; a rejected call is
    caught, logged and answered with [null].  The client is a function from
    commands to what [send] does with them. *)

Module R2.

Record GetObjectCommand := mkCommand {
  Bucket : string;
  Key : string;
  Range : option string
}.

Record GetObjectCommandOutput (B : Type) := mkOutput {
  ContentLength : option Z;
  Body : option B;
  ContentType : option string
}.
Arguments mkOutput {B} ContentLength Body ContentType.
Arguments ContentLength {B} g.
Arguments Body {B} g.
Arguments ContentType {B} g.

Inductive Sent (B : Type) : Type :=
| Resolved (res : GetObjectCommandOutput B)
| Rejected.
Arguments Resolved {B} res.
Arguments Rejected {B}.

(** The constructor sets the bucket to this literal. *)
Definition bucketName : string := "audio-files".

Definition getfileMediaInfo {B} (s3Client : GetObjectCommand -> Sent B)
    (fileName : string) : Outcome (GetObjectCommandOutput B) :=
  let headCommand := mkCommand bucketName fileName None in
  match s3Client headCommand with
  | Resolved res => Returned (Some res)
  | Rejected => Returned None
  end.

Definition getFileRange {B} (s3Client : GetObjectCommand -> Sent B)
    (fileName : string) (start end_ : Z)
    : Outcome (GetObjectCommandOutput B) :=
  let rangeCommand :=
    mkCommand bucketName fileName
      (Some ("bytes=" +:+ Js.numToString start +:+ "-"
             +:+ Js.numToString end_)) in
  match s3Client rangeCommand with
  | Resolved res => Returned (Some res)
  | Rejected => Returned None
  end.

End R2.

(** What a caller gets from a method, read through the fields it uses. *)
Definition mapOutcome {A A'} (f : A -> A') (o : Outcome A) : Outcome A' :=
  match o with
  | Returned a => Returned (f <$> a)
  | Thrown => Thrown
  end.

(** The route over [audioStorageR2]: of the metadata answer the handler
    reads [ContentLength], of the range answer [Body] and [ContentType]. *)
Definition audioStorageR2 {B} (s3Client : R2.GetObjectCommand -> R2.Sent B)
    (siteURL : string) (encode : string -> string)
    (validate : string -> bool) : Env B :=
  mkEnv B
    (fun fileName =>
       mapOutcome (fun res => mkMediaInfo (R2.ContentLength res))
                  (R2.getfileMediaInfo s3Client fileName))
    (fun fileName start end_ =>
       mapOutcome (fun res => mkRangeOutput (R2.Body res) (R2.ContentType res))
                  (R2.getFileRange s3Client fileName start end_))
    siteURL
    encode
    validate.

(** An S3 client holding one object of [size] bytes under every key. *)
Definition oneObjectClient (size : Z) : R2.GetObjectCommand -> R2.Sent unit :=
  fun _ => R2.Resolved (R2.mkOutput (Some size) (Some tt) None).

(** ** Vocabulary for the properties of the handler *)

(** The request names a file whose non-zero size the storage reports. *)
Definition Sized {B} (env : Env B) (request : Request) (fileName : string)
    (fileSize : Z) : Prop :=
  file request = Some fileName
  /\ Js.truthy fileName = true
  /\ (exists fileMetadata,
        getfileMediaInfo env fileName = Returned (Some fileMetadata)
        /\ ContentLength fileMetadata = Some fileSize)
  /\ fileSize <> 0.

(** The handler has the bytes in hand: the path up to the construction of
    the streamed answer. *)
Definition Fetched {B} (env : Env B) (request : Request) (fileName : string)
    (fileSize : Z) (sv : Served) (response : RangeOutput B) (content : B)
    : Prop :=
  Sized env request fileName fileSize
  /\ settleRange (range request) fileSize = Some sv
  /\ getFileRange env fileName (servedStart sv) (servedEnd sv)
     = Returned (Some response)
  /\ Body response = Some content.

(** No dot in a string. *)
Fixpoint noDot (s : string) : bool :=
  match s with
  | EmptyString => true
  | String c s' => negb (Ascii.eqb c ".") && noDot s'
  end.

(** Every entry of a rate-limit table counts between 1 and 30 calls. *)
Definition countsInRange (rateLimitMap : gmap string RateLimitEntry) : Prop :=
  forall identifier entry,
    rateLimitMap !! identifier = Some entry -> 1 <= count entry <= 30.

(** A client that follows the [X-Next-Range] hints: it sends [range], and
    as long as an answer carries a hint it sends the hint as the next
    [Range] header.  The hint is the one [GET] computes from the range it
    served; the list is what the handler settles for each request. *)
Definition nextRangeHint (sv : Served) (fileSize : Z) : option string :=
  if isPartialContent sv && (servedEnd sv <? fileSize - 1) then
    let contentLength := servedEnd sv - servedStart sv + 1 in
    let nextChunkStart := servedEnd sv + 1 in
    let nextChunkEnd :=
      Z.min (nextChunkStart + contentLength - 1) (fileSize - 1) in
    Some ("bytes=" +:+ Js.numToString nextChunkStart +:+ "-"
          +:+ Js.numToString nextChunkEnd)
  else None.

Fixpoint followHints (fuel : nat) (range : option string) (fileSize : Z)
    : list Served :=
  match fuel with
  | O => []
  | S fuel' =>
      match settleRange range fileSize with
      | None => []
      | Some sv =>
          sv :: match nextRangeHint sv fileSize with
                | Some hint => followHints fuel' (Some hint) fileSize
                | None => []
                end
      end
  end.

(** ** Proof automation *)

(** Case analysis on every integer comparison in sight. *)
Ltac zcases :=
  rewrite ?Z.geb_leb, ?Z.gtb_ltb in *;
  repeat match goal with
         | |- context [?a <=? ?b] => destruct (Z.leb_spec a b)
         | |- context [?a <? ?b] => destruct (Z.ltb_spec a b)
         | |- context [?a =? ?b] => destruct (Z.eqb_spec a b)
         | H : context [?a <=? ?b] |- _ => destruct (Z.leb_spec a b)
         | H : context [?a <? ?b] |- _ => destruct (Z.ltb_spec a b)
         | H : context [?a =? ?b] |- _ => destruct (Z.eqb_spec a b)
         end.

(** A concrete instance of [Serves] is settled by running the handler's
    steps. *)
Ltac serves_by_computation :=
  unfold Serves; repeat split;
  try reflexivity; try discriminate; try (eexists; split; reflexivity);
  try (vm_compute; reflexivity).

(** * Properties *)

Example parseRange_ex1 : parseRange "bytes=0-499" 1000 = Some (mkRange 0 499).
Proof. reflexivity. Qed.

Example parseRange_ex2 : parseRange "bytes=100-" 1000 = Some (mkRange 100 999).
Proof. reflexivity. Qed.

Example parseRange_ex3 : parseRange "bytes=-500" 1000 = Some (mkRange 0 500).
Proof. reflexivity. Qed.

Example parseRange_ex4 : parseRange "bytes=5000000-" 4194304 = None.
Proof. reflexivity. Qed.

Example numToString_ex : Js.numToString 4194304 = "4194304"%string.
Proof. reflexivity. Qed.

(** ** Strings *)

Section StringFacts.

Lemma string_app_nil_l (s : string) : "" +:+ s = s.
Proof. reflexivity. Qed.

Lemma string_app_cons (c : ascii) (s t : string) :
  String c s +:+ t = String c (s +:+ t).
Proof. reflexivity. Qed.

Lemma string_app_nil_r (s : string) : s +:+ "" = s.
Proof.
  induction s as [|c s IH]; [reflexivity|].
  rewrite string_app_cons, IH. reflexivity.
Qed.

Lemma string_app_assoc (s t u : string) : (s +:+ t) +:+ u = s +:+ (t +:+ u).
Proof.
  induction s as [|c s IH]; [reflexivity|].
  rewrite !string_app_cons, IH. reflexivity.
Qed.

End StringFacts.

(** ** Digits *)

Module JsFacts.
Import Js.

Lemma isDigit_value (c : ascii) : isDigit c = true -> 0 <= digitValue c <= 9.
Proof.
  unfold isDigit, digitValue. intros H.
  apply andb_true_iff in H as [H1 H2].
  apply Nat.leb_le in H1. apply Nat.leb_le in H2. lia.
Qed.

Lemma digitChar_spec (d : Z) :
  0 <= d <= 9 -> isDigit (digitChar d) = true /\ digitValue (digitChar d) = d.
Proof.
  intros H.
  assert (d = 0 \/ d = 1 \/ d = 2 \/ d = 3 \/ d = 4 \/ d = 5 \/ d = 6 \/
          d = 7 \/ d = 8 \/ d = 9) as Hd by lia.
  repeat (destruct Hd as [-> | Hd]; [split; reflexivity|]).
  subst d. split; reflexivity.
Qed.

Lemma allDigits_app (s t : string) :
  allDigits (s +:+ t) = allDigits s && allDigits t.
Proof.
  induction s as [|c s IH]; [reflexivity|].
  rewrite string_app_cons. simpl. rewrite IH, andb_assoc. reflexivity.
Qed.

Lemma parseDigits_app (s t : string) (acc : Z) :
  parseDigits acc (s +:+ t) = parseDigits (parseDigits acc s) t.
Proof.
  revert acc. induction s as [|c s IH]; intros acc; [reflexivity|].
  rewrite string_app_cons. simpl. apply IH.
Qed.

Lemma parseDigits_nonneg (s : string) (acc : Z) :
  allDigits s = true -> 0 <= acc -> 0 <= parseDigits acc s.
Proof.
  revert acc. induction s as [|c s IH]; intros acc Hs Hacc; simpl in *; [lia|].
  apply andb_true_iff in Hs as [Hc Hs].
  apply IH; [exact Hs|]. pose proof (isDigit_value c Hc). lia.
Qed.

Lemma parseInt_nonneg (s : string) : allDigits s = true -> 0 <= parseInt s.
Proof. intros H. apply parseDigits_nonneg; [exact H | lia]. Qed.

(** Enough fuel prints every digit: the result is a non-empty digit string
    that reads back as [n]. *)
Lemma digitsOf_spec (fuel : nat) :
  forall (n : Z) (acc : string),
    (1 <= fuel)%nat -> 0 <= n < 2 ^ Z.of_nat fuel ->
    exists ds, digitsOf fuel n acc = ds +:+ acc
               /\ allDigits ds = true /\ truthy ds = true
               /\ parseDigits 0 ds = n.
Proof.
  induction fuel as [|fuel IH]; intros n acc Hfuel Hn; [lia|].
  assert (0 <= n mod 10 <= 9) as Hmod by (pose proof (Z.mod_pos_bound n 10); lia).
  destruct (digitChar_spec _ Hmod) as [Hdig Hval].
  simpl digitsOf. destruct (n <? 10) eqn:Hlt.
  - apply Z.ltb_lt in Hlt.
    exists (String (digitChar (n mod 10)) "").
    repeat split.
    + simpl. rewrite Hdig. reflexivity.
    + simpl. rewrite Hval. rewrite Z.mod_small; lia.
  - apply Z.ltb_ge in Hlt.
    assert (2 ^ Z.of_nat (S fuel) = 2 * 2 ^ Z.of_nat fuel) as Hpow
      by (rewrite Nat2Z.inj_succ, Z.pow_succ_r; lia).
    assert (0 <= n / 10 < 2 ^ Z.of_nat fuel) as Hdiv.
    { split; [apply Z.div_pos; lia|].
      apply Z.div_lt_upper_bound; lia. }
    assert (1 <= fuel)%nat as Hfuel'.
    { destruct fuel as [|fuel']; [|lia]. simpl in Hpow. lia. }
    destruct (IH (n / 10) (String (digitChar (n mod 10)) acc) Hfuel' Hdiv)
      as (ds & Heq & Hds & Hne & Hparse).
    exists (ds +:+ String (digitChar (n mod 10)) "").
    rewrite Heq, string_app_assoc, string_app_cons, string_app_nil_l.
    repeat split.
    + rewrite allDigits_app, Hds. simpl. rewrite Hdig. reflexivity.
    + destruct ds; [discriminate|reflexivity].
    + rewrite parseDigits_app, Hparse. simpl. rewrite Hval.
      pose proof (Z.div_mod n 10). lia.
Qed.

Lemma numToString_spec (n : Z) :
  0 <= n ->
  allDigits (numToString n) = true /\ truthy (numToString n) = true
  /\ parseInt (numToString n) = n.
Proof.
  intros Hn. unfold numToString, parseInt.
  destruct (n <? 0) eqn:Hneg; [apply Z.ltb_lt in Hneg; lia|].
  assert (0 <= n < 2 ^ Z.of_nat (digitFuel n)) as Hbound.
  { unfold digitFuel. rewrite Nat2Z.inj_succ, Z2Nat.id by apply Z.log2_nonneg.
    destruct (Z.eq_dec n 0) as [-> | Hnz]; [simpl; lia|].
    pose proof (Z.log2_spec n). lia. }
  destruct (digitsOf_spec (digitFuel n) n "" ltac:(unfold digitFuel; lia) Hbound)
    as (ds & Heq & Hds & Hne & Hparse).
  rewrite string_app_nil_r in Heq. rewrite Heq. auto.
Qed.

End JsFacts.

(** ** The regular expression finds the first range written in the subject *)

Module RegexFacts.
Import Js Regex Grammar.

Lemma stripPrefix_app (p s : string) : stripPrefix p (p +:+ s) = Some s.
Proof.
  induction p as [|a p IH]; [reflexivity|].
  rewrite string_app_cons. simpl. rewrite Ascii.eqb_refl. exact IH.
Qed.

Lemma stripPrefix_inv (p s r : string) : stripPrefix p s = Some r -> s = p +:+ r.
Proof.
  revert s. induction p as [|a p IH]; intros s H; simpl in H.
  - injection H as ->. reflexivity.
  - destruct s as [|b s]; [discriminate|].
    destruct (Ascii.eqb a b) eqn:Hab; [|discriminate].
    apply Ascii.eqb_eq in Hab as ->.
    rewrite string_app_cons. f_equal. apply IH, H.
Qed.

Lemma spanDigits_inv (s ds rest : string) :
  spanDigits s = (ds, rest) ->
  s = ds +:+ rest /\ allDigits ds = true /\ noLeadingDigit rest = true.
Proof.
  revert ds rest. induction s as [|c s IH]; intros ds rest H; simpl in H.
  - injection H as <- <-. auto.
  - destruct (isDigit c) eqn:Hc.
    + destruct (spanDigits s) as [ds' rest'] eqn:Hs.
      injection H as <- <-.
      destruct (IH ds' rest' eq_refl) as (-> & Hds & Hrest).
      rewrite string_app_cons. simpl. rewrite Hc. auto.
    + injection H as <- <-. simpl. rewrite Hc. auto.
Qed.

Lemma spanDigits_app (ds rest : string) :
  allDigits ds = true -> noLeadingDigit rest = true ->
  spanDigits (ds +:+ rest) = (ds, rest).
Proof.
  intros Hds Hrest. induction ds as [|c ds IH].
  - rewrite string_app_nil_l. destruct rest as [|c rest]; [reflexivity|].
    simpl in *. apply negb_true_iff in Hrest. rewrite Hrest. reflexivity.
  - simpl in Hds. apply andb_true_iff in Hds as [Hc Hds].
    rewrite string_app_cons. simpl. rewrite Hc, (IH Hds). reflexivity.
Qed.

(** The digits in front of a non-digit are found whatever follows. *)
Lemma spanDigits_minus (ds rest : string) :
  allDigits ds = true ->
  spanDigits (ds +:+ "-" +:+ rest) = (ds, String "-" rest).
Proof. intros Hds. apply (spanDigits_app ds (String "-" rest) Hds). reflexivity. Qed.

(** A digit string followed by anything: the span takes at least it. *)
Lemma spanDigits_extend (ds post : string) :
  allDigits ds = true ->
  exists more rest,
    spanDigits (ds +:+ post) = (ds +:+ more, rest) /\ post = more +:+ rest.
Proof.
  intros Hds. induction ds as [|c ds IH].
  - rewrite string_app_nil_l. destruct (spanDigits post) as [more rest] eqn:H.
    exists more, rest. split; [reflexivity|]. apply spanDigits_inv in H. tauto.
  - simpl in Hds. apply andb_true_iff in Hds as [Hc Hds].
    destruct (IH Hds) as (more & rest & Hspan & Hpost).
    exists more, rest. rewrite !string_app_cons. simpl.
    rewrite Hc, Hspan. auto.
Qed.

Lemma matchHere_inv (s g1 g2 : string) :
  matchHere s = Some (g1, g2) ->
  exists post, occursAt s "" g1 g2 post /\ noLeadingDigit post = true.
Proof.
  unfold matchHere. intros H.
  destruct (stripPrefix "bytes=" s) as [r|] eqn:Hp; [|discriminate].
  apply stripPrefix_inv in Hp.
  destruct (spanDigits r) as [d1 r1] eqn:H1.
  apply spanDigits_inv in H1 as (-> & Hd1 & _).
  destruct r1 as [|c r2]; [discriminate|].
  destruct (Ascii.eqb c "-") eqn:Hc.
  - apply Ascii.eqb_eq in Hc as ->.
    destruct (spanDigits r2) as [d2 post] eqn:H2.
    apply spanDigits_inv in H2 as (-> & Hd2 & Hpost).
    injection H as <- <-. exists post. split; [|exact Hpost].
    split; [exact Hd1|]. split; [exact Hd2|].
    rewrite Hp. unfold rangeText.
    rewrite string_app_nil_l, !string_app_assoc. reflexivity.
  - discriminate.
Qed.

Lemma matchHere_complete (s g1 g2 post : string) :
  occursAt s "" g1 g2 post ->
  exists more rest,
    matchHere s = Some (g1, g2 +:+ more) /\ post = more +:+ rest.
Proof.
  intros (Hd1 & Hd2 & ->). unfold matchHere, rangeText.
  rewrite string_app_nil_l, !string_app_assoc, stripPrefix_app.
  rewrite spanDigits_minus by exact Hd1.
  destruct (spanDigits_extend g2 post Hd2) as (more & rest & Hspan & Hpost).
  rewrite Ascii.eqb_refl, Hspan.
  exists more, rest. auto.
Qed.

Lemma matchHere_exact (s g1 g2 post : string) :
  occursAt s "" g1 g2 post -> noLeadingDigit post = true ->
  matchHere s = Some (g1, g2).
Proof.
  intros (Hd1 & Hd2 & ->) Hpost. unfold matchHere, rangeText.
  rewrite string_app_nil_l, !string_app_assoc, stripPrefix_app.
  rewrite spanDigits_minus by exact Hd1.
  rewrite Ascii.eqb_refl, spanDigits_app by assumption. reflexivity.
Qed.

Lemma occursAt_cons (c : ascii) (s pre ds de post : string) :
  occursAt s pre ds de post -> occursAt (String c s) (String c pre) ds de post.
Proof.
  unfold occursAt. rewrite string_app_cons. intros (H1 & H2 & ->). auto.
Qed.

Lemma occursAt_tail (c : ascii) (s pre ds de post : string) :
  occursAt (String c s) (String c pre) ds de post -> occursAt s pre ds de post.
Proof.
  unfold occursAt. rewrite string_app_cons.
  intros (H1 & H2 & H); injection H as ->. auto.
Qed.

Lemma occursAt_head (c : ascii) (s pre ds de post : string) :
  occursAt (String c s) pre ds de post ->
  pre = "" \/ exists pre', pre = String c pre' /\ occursAt s pre' ds de post.
Proof.
  destruct pre as [|c' pre']; [auto|]. intros H. right.
  assert (c' = c) as ->.
  { destruct H as (_ & _ & H). rewrite string_app_cons in H. congruence. }
  exists pre'. split; [reflexivity|]. exact (occursAt_tail _ _ _ _ _ _ H).
Qed.

Lemma search_unfold (s : string) :
  search s = match matchHere s with
             | Some groups => Some groups
             | None => match s with
                       | EmptyString => None
                       | String _ s' => search s'
                       end
             end.
Proof. destruct s; reflexivity. Qed.

Lemma search_sound (s g1 g2 : string) :
  search s = Some (g1, g2) -> leftmost s g1 g2.
Proof.
  induction s as [|c s IH]; rewrite search_unfold;
    destruct (matchHere _) as [[h1 h2]|] eqn:Hm; intros H; try discriminate.
  - injection H as -> ->. apply matchHere_inv in Hm as (post & Hocc & Hpost).
    exists "", post. repeat split; try apply Hocc; [exact Hpost|].
    intros; simpl; lia.
  - destruct (IH H) as (pre & post & Hocc & Hpost & Hleft).
    exists (String c pre), post. split; [apply occursAt_cons, Hocc|].
    split; [exact Hpost|].
    intros pre' ds' de' post' Hocc'.
    apply occursAt_head in Hocc' as Hcase.
    destruct Hcase as [-> | (pre'' & -> & Hocc'')].
    + apply matchHere_complete in Hocc' as (more & rest & Hm' & _). congruence.
    + simpl. apply le_n_S. eapply Hleft, Hocc''.
Qed.

Lemma search_complete (s g1 g2 : string) :
  leftmost s g1 g2 -> search s = Some (g1, g2).
Proof.
  intros (pre & post & Hocc & Hpost & Hleft). revert s Hocc Hleft.
  induction pre as [|c pre IH]; intros s Hocc Hleft; rewrite search_unfold.
  - rewrite (matchHere_exact s g1 g2 post Hocc Hpost). reflexivity.
  - destruct (matchHere s) as [[h1 h2]|] eqn:Hm.
    + apply matchHere_inv in Hm as (post' & Hocc' & _).
      pose proof (Hleft _ _ _ _ Hocc') as Hle. simpl in Hle. lia.
    + assert (exists s', s = String c s') as [s' ->].
      { destruct Hocc as (_ & _ & ->). rewrite string_app_cons. eauto. }
      apply IH; [exact (occursAt_tail _ _ _ _ _ _ Hocc)|].
      intros pre' ds' de' post' Hocc'.
      pose proof (Hleft _ _ _ _ (occursAt_cons c _ _ _ _ _ Hocc')) as Hle.
      simpl in Hle. lia.
Qed.

Lemma search_none (s : string) : search s = None <-> ~ contains s.
Proof.
  split.
  - intros Hnone (pre & ds & de & post & Hocc). revert s Hnone Hocc.
    induction pre as [|c pre IH]; intros s Hnone Hocc;
      rewrite search_unfold in Hnone.
    + apply matchHere_complete in Hocc as (more & rest & Hm & _).
      rewrite Hm in Hnone. discriminate.
    + destruct (matchHere s); [discriminate|].
      assert (exists s', s = String c s') as [s' ->].
      { destruct Hocc as (_ & _ & ->). rewrite string_app_cons. eauto. }
      exact (IH s' Hnone (occursAt_tail _ _ _ _ _ _ Hocc)).
  - intros Hno. destruct (search s) as [[g1 g2]|] eqn:Hs; [|reflexivity].
    exfalso. apply Hno. apply search_sound in Hs as (pre & post & Hocc & _).
    exists pre, g1, g2, post. exact Hocc.
Qed.

(** The captured groups are digit strings. *)
Lemma search_digits (s g1 g2 : string) :
  search s = Some (g1, g2) -> allDigits g1 = true /\ allDigits g2 = true.
Proof.
  intros H. apply search_sound in H as (pre & post & (H1 & H2 & _) & _). auto.
Qed.

(** The first range of a header is unique. *)
Lemma leftmost_unique (s ds de ds' de' : string) :
  leftmost s ds de -> leftmost s ds' de' -> ds = ds' /\ de = de'.
Proof.
  intros H H'. apply search_complete in H, H'.
  rewrite H in H'. injection H' as -> ->. auto.
Qed.

End RegexFacts.

(** ** [parseRange] *)

Section ParseRange.
Import Js Regex Grammar RegexFacts JsFacts.

Lemma bound_nonneg (ds : string) (d : Z) :
  allDigits ds = true -> 0 <= d -> 0 <= bound ds d.
Proof.
  intros Hds Hd. unfold bound. destruct (truthy ds); [|exact Hd].
  apply parseInt_nonneg, Hds.
Qed.

Lemma bound_start_nonneg (ds : string) : allDigits ds = true -> 0 <= bound ds 0.
Proof. intros Hds. apply bound_nonneg; [exact Hds | lia]. Qed.

(** [parseRange] reads the bounds of the first range and checks them. *)
Lemma parseRange_leftmost (header ds de : string) (fileSize : Z) :
  leftmost header ds de ->
  parseRange header fileSize =
    let start := bound ds 0 in
    let end_ := bound de (fileSize - 1) in
    if (start >=? fileSize) || (end_ >=? fileSize) || (start >? end_)
    then None else Some (mkRange start end_).
Proof.
  intros H. unfold parseRange. rewrite (search_complete _ _ _ H). reflexivity.
Qed.

Lemma unsatisfiable_test (start end_ fileSize : Z) :
  (start >=? fileSize) || (end_ >=? fileSize) || (start >? end_) = true
  <-> unsatisfiable start end_ fileSize.
Proof.
  unfold unsatisfiable. zcases; simpl; split; intros; try lia; try discriminate; reflexivity.
Qed.

Lemma rangeText_leftmost (ds de : string) :
  allDigits ds = true -> allDigits de = true -> leftmost (rangeText ds de) ds de.
Proof.
  intros Hds Hde. exists "", "". repeat split; try assumption.
  - rewrite string_app_nil_l, string_app_nil_r. reflexivity.
  - intros. simpl. lia.
Qed.

Lemma parseRange_some_inv (header : string) (fileSize : Z) (r : ByteRange) :
  parseRange header fileSize = Some r ->
  exists ds de,
    leftmost header ds de
    /\ r = mkRange (bound ds 0) (bound de (fileSize - 1))
    /\ 0 <= start r <= end_ r /\ end_ r < fileSize.
Proof.
  unfold parseRange. intros H.
  destruct (search header) as [[ds de]|] eqn:Hs; [|discriminate].
  pose proof (search_digits _ _ _ Hs) as [Hds Hde].
  fold (bound ds 0) in H. fold (bound de (fileSize - 1)) in H.
  destruct (_ || _ || _) eqn:Htest; [discriminate|].
  injection H as <-. exists ds, de.
  split; [apply search_sound, Hs|]. split; [reflexivity|].
  pose proof (bound_start_nonneg ds Hds).
  simpl. zcases; simpl in Htest; try discriminate; lia.
Qed.

Lemma render_bound (b : option Z) (d : Z) :
  0 <= default d b ->
  allDigits (render b) = true /\ bound (render b) d = default d b.
Proof.
  destruct b as [n|]; simpl; intros Hn; [|auto].
  destruct (numToString_spec n Hn) as (Hd & Ht & Hp).
  unfold bound. rewrite Ht. auto.
Qed.

(** The round trip: a range a client writes from valid bounds is read back
    as those bounds. *)
Lemma parseRange_rendered (s e : option Z) (fileSize : Z) :
  0 <= default 0 s <= default (fileSize - 1) e ->
  default (fileSize - 1) e < fileSize ->
  parseRange (rangeText (render s) (render e)) fileSize
  = Some (mkRange (default 0 s) (default (fileSize - 1) e)).
Proof.
  intros H1 H2.
  destruct (render_bound s 0) as [Hds Hs]; [lia|].
  destruct (render_bound e (fileSize - 1)) as [Hde He]; [lia|].
  rewrite (parseRange_leftmost _ _ _ _ (rangeText_leftmost _ _ Hds Hde)).
  cbv zeta. rewrite Hs, He.
  destruct (_ || _ || _) eqn:Htest; [|reflexivity].
  apply unsatisfiable_test in Htest. unfold unsatisfiable in Htest. lia.
Qed.

(** C1, as the code has it.  A header that is one range written from
    bounds with [0 <= start <= end < fileSize] (a missing start standing
    for 0, a missing end for [fileSize - 1]) is parsed to exactly these
    bounds.  [parseRange] fails exactly when no range is written anywhere
    in the header, or the bounds of the first range written in it have
    [start >= fileSize], [end >= fileSize] or [start > end]; what precedes
    and follows that range is not looked at.  When it succeeds the result
    is the pair of bounds of that first range. *)
Theorem parseRange_first_range (header : string) (fileSize : Z) :
  (forall s e : option Z,
     header = rangeText (render s) (render e) ->
     0 <= default 0 s <= default (fileSize - 1) e
     /\ default (fileSize - 1) e < fileSize ->
     parseRange header fileSize
     = Some (mkRange (default 0 s) (default (fileSize - 1) e)))
  /\ (parseRange header fileSize = None <->
      ~ contains header
      \/ exists ds de,
           leftmost header ds de
           /\ unsatisfiable (bound ds 0) (bound de (fileSize - 1)) fileSize)
  /\ (forall r,
        parseRange header fileSize = Some r ->
        exists ds de,
          leftmost header ds de
          /\ r = mkRange (bound ds 0) (bound de (fileSize - 1))
          /\ 0 <= start r <= end_ r /\ end_ r < fileSize).
Proof.
  split; [intros s e -> [H1 H2]; apply parseRange_rendered; assumption|].
  split; [|intros r; apply parseRange_some_inv].
  split.
  - intros Hnone. unfold parseRange in Hnone.
    destruct (search header) as [[ds de]|] eqn:Hs.
    + right. exists ds, de. split; [apply search_sound, Hs|].
      apply unsatisfiable_test. unfold bound.
      destruct (_ || _ || _); [reflexivity | discriminate].
    + left. apply search_none, Hs.
  - intros [Hno | (ds & de & Hleft & Hbad)].
    + unfold parseRange. apply search_none in Hno. rewrite Hno. reflexivity.
    + rewrite (parseRange_leftmost _ _ _ _ Hleft). cbv zeta.
      apply unsatisfiable_test in Hbad. rewrite Hbad. reflexivity.
Qed.

Lemma parseRange_first_range_witness :
  parseRange "bytes=100-" 1000 = Some (mkRange 100 999).
Proof.
  apply (proj1 (parseRange_first_range "bytes=100-" 1000) (Some 100) None).
  - reflexivity.
  - simpl. lia.
Defined.

(** C1 as stated fails: a multi-range header is not of the single-range
    form, and it is parsed to its first range. *)
Lemma parseRange_multi_range_accepted :
  ~ wellFormed "bytes=0-499,600-999"
  /\ parseRange "bytes=0-499,600-999" 1000 = Some (mkRange 0 499).
Proof.
  split; [|reflexivity].
  intros (ds & de & Hds & Hde & H). unfold rangeText in H.
  apply (f_equal (stripPrefix "bytes=")) in H.
  rewrite stripPrefix_app in H. injection H as H.
  apply (f_equal spanDigits) in H.
  rewrite spanDigits_minus in H by exact Hds.
  injection H as <- <-. discriminate Hde.
Qed.

End ParseRange.

(** ** [optimizeRange] *)

Section OptimizeRange.

Lemma optimizeRange_first (requested : ByteRange) (fileSize : Z) :
  start requested = 0 ->
  optimizeRange requested fileSize true
  = mkRange 0 (Z.min (if fileSize <? 5 * 1024 * 1024 then 1024 * 1024
                      else if fileSize <? 15 * 1024 * 1024 then 2 * 1024 * 1024
                           else 3 * 1024 * 1024)
                     (fileSize - 1)).
Proof.
  intros H. unfold optimizeRange. rewrite H. simpl.
  repeat destruct (_ <? _); reflexivity.
Qed.

(** Neither policy leaves the object; the handler's properties rely on
    this too. *)
Lemma optimizeRange_bounds (requested : ByteRange) (fileSize : Z)
    (isFirstRequest : bool) :
  0 < fileSize ->
  0 <= start requested <= end_ requested ->
  end_ requested <= fileSize - 1 ->
  0 <= start (optimizeRange requested fileSize isFirstRequest)
    <= end_ (optimizeRange requested fileSize isFirstRequest)
  /\ end_ (optimizeRange requested fileSize isFirstRequest) <= fileSize - 1.
Proof.
  intros Hsize Hreq Hend. destruct requested as [s e]. simpl in *.
  unfold optimizeRange. simpl.
  destruct isFirstRequest; simpl; zcases; simpl; lia.
Qed.

(** C2.  For a requested range with [0 <= start <= end <= fileSize - 1],
    a positive [fileSize] and either value of [isFirstRequest], the range
    [optimizeRange] returns satisfies [0 <= start <= end <= fileSize - 1]. *)
Theorem optimizeRange_valid (requested : ByteRange) (fileSize : Z)
    (isFirstRequest : bool) :
  0 < fileSize ->
  0 <= start requested <= end_ requested ->
  end_ requested <= fileSize - 1 ->
  let served := optimizeRange requested fileSize isFirstRequest in
  0 <= start served <= end_ served /\ end_ served <= fileSize - 1.
Proof. intros Hsize Hreq Hend. apply optimizeRange_bounds; assumption. Qed.

Lemma optimizeRange_valid_witness :
  let served := optimizeRange (mkRange 0 99) 4194304 true in
  0 <= start served <= end_ served /\ end_ served <= 4194304 - 1.
Proof. apply (optimizeRange_valid (mkRange 0 99) 4194304 true); simpl; lia. Defined.

(** C3.  Under the steady-state policy ([isFirstRequest] false, or a start
    other than 0) a valid requested range keeps its start, its end does
    not decrease and stays at most [fileSize - 1], and a range that ends at
    [fileSize - 1] is returned as it is. *)
Theorem optimizeRange_steady (requested : ByteRange) (fileSize : Z)
    (isFirstRequest : bool) :
  0 <= start requested <= end_ requested ->
  end_ requested <= fileSize - 1 ->
  isFirstRequest = false \/ start requested <> 0 ->
  let served := optimizeRange requested fileSize isFirstRequest in
  start served = start requested
  /\ end_ requested <= end_ served <= fileSize - 1
  /\ (end_ requested = fileSize - 1 -> served = requested).
Proof.
  intros Hreq Hend Hsteady. destruct requested as [s e]. simpl in *.
  unfold optimizeRange. simpl.
  assert (isFirstRequest && (s =? 0) = false) as ->.
  { destruct Hsteady as [-> | Hs]; [reflexivity|].
    apply andb_false_iff. right. apply Z.eqb_neq, Hs. }
  zcases; simpl; repeat split; intros; try lia; try reflexivity.
Qed.

Lemma optimizeRange_steady_witness :
  let served := optimizeRange (mkRange 2097152 2097663) 4194304 false in
  start served = 2097152
  /\ 2097663 <= end_ served <= 4194304 - 1
  /\ (2097663 = 4194304 - 1 -> served = mkRange 2097152 2097663).
Proof.
  apply (optimizeRange_steady (mkRange 2097152 2097663) 4194304 false);
    simpl; [lia | lia | left; reflexivity].
Defined.

Example optimizeRange_reaches_eof :
  optimizeRange (mkRange 4000000 4194303) 4194304 false
  = mkRange 4000000 4194303.
Proof. reflexivity. Qed.

(** C5, as the code has it.  For an object of 4,194,304 bytes and the
    header [bytes=2097152-2097663], the steady-state policy of the tier
    below 5MB (optimal chunk 512KB) expands the range to exactly
    2097152-2621439: the start plus 524288, minus 1. *)
Theorem optimizeRange_scenario_512 :
  parseRange "bytes=2097152-2097663" 4194304 = Some (mkRange 2097152 2097663)
  /\ optimizeRange (mkRange 2097152 2097663) 4194304 false
     = mkRange 2097152 2621439
  /\ settleRange (Some "bytes=2097152-2097663"%string) 4194304
     = Some (mkServed 2097152 2621439 true false).
Proof. repeat split; reflexivity. Qed.

(** C5 as stated fails: the served range does not end at 2621695. *)
Lemma optimizeRange_scenario_512_not_2621695 :
  settleRange (Some "bytes=2097152-2097663"%string) 4194304
  <> Some (mkServed 2097152 2621695 true false)
  /\ optimizeRange (mkRange 2097152 2097663) 4194304 false
     <> mkRange 2097152 2621695.
Proof. split; intros H; discriminate H. Qed.

End OptimizeRange.

(** ** The handler *)

Section Handler.
Context {B : Type}.
Implicit Types (env : Env B) (request : Request) (sv : Served).

Lemma baseHeaders_cacheControl (ct cl cc origin : string) :
  baseHeaders ct cl cc origin !! "Cache-Control"%string = Some cc.
Proof. vm_compute. reflexivity. Qed.

Lemma baseHeaders_nextRange (ct cl cc origin : string) :
  baseHeaders ct cl cc origin !! "X-Next-Range"%string = None.
Proof. vm_compute. reflexivity. Qed.

Lemma baseHeaders_contentRange (ct cl cc origin : string) :
  baseHeaders ct cl cc origin !! "Content-Range"%string = None.
Proof. vm_compute. reflexivity. Qed.

Lemma responseHeaders_cacheControl env fileName fileSize sv storageType :
  responseHeaders env fileName fileSize sv storageType !! "Cache-Control"%string
  = Some (cacheControl (isFirstRequest sv) fileSize (isPartialContent sv)).
Proof.
  unfold responseHeaders, whenb.
  destruct (isPartialContent sv); simpl;
    destruct (servedEnd sv <? fileSize - 1);
    rewrite ?lookup_insert_ne by discriminate;
    apply baseHeaders_cacheControl.
Qed.

Lemma responseHeaders_nextRange env fileName fileSize sv storageType :
  responseHeaders env fileName fileSize sv storageType !! "X-Next-Range"%string
  = if isPartialContent sv && (servedEnd sv <? fileSize - 1)
    then Some (Grammar.rangeText
                 (Js.numToString (servedEnd sv + 1))
                 (Js.numToString
                    (Z.min (servedEnd sv + 1
                            + (servedEnd sv - servedStart sv + 1) - 1)
                           (fileSize - 1))))
    else None.
Proof.
  unfold responseHeaders, whenb.
  destruct (isPartialContent sv); simpl;
    destruct (servedEnd sv <? fileSize - 1);
    rewrite ?(lookup_insert_ne _ "Content-Range"%string) by discriminate;
    rewrite ?lookup_insert_eq; try reflexivity;
    apply baseHeaders_nextRange.
Qed.

Lemma responseHeaders_contentRange env fileName fileSize sv storageType :
  responseHeaders env fileName fileSize sv storageType !! "Content-Range"%string
  = if isPartialContent sv
    then Some ("bytes " +:+ Js.numToString (servedStart sv) +:+ "-"
               +:+ Js.numToString (servedEnd sv) +:+ "/"
               +:+ Js.numToString fileSize)
    else None.
Proof.
  unfold responseHeaders, whenb.
  destruct (isPartialContent sv); simpl.
  - apply lookup_insert_eq.
  - apply baseHeaders_contentRange.
Qed.

(** The streamed answer. *)
Lemma respond_serves env request fileName fileSize sv response content :
  Serves env request fileName fileSize sv response content ->
  respond env request
  = mkResponse (if isPartialContent sv then 206 else 200)
               (responseHeaders env fileName fileSize sv (ContentType response))
               (Stream content).
Proof.
  intros (Hfile & Hname & (meta & Hmeta & Hlen) & Hnz & Hsettle & Hget & Hbody
          & Haccept).
  unfold respond. rewrite Hfile.
  destruct fileName as [|c fileName']; [discriminate|].
  rewrite Hmeta. simpl. rewrite Hlen.
  destruct fileSize as [|fileSize'|fileSize']; [congruence|..];
    rewrite Hsettle, Hget, Hbody; cbv zeta; rewrite Haccept; reflexivity.
Qed.

(** Every answer is either one of the error exits, which set no header, or
    the streamed answer. *)
Lemma respond_inv env request :
  (headers (respond env request) = ∅
   /\ (status (respond env request) = 400
       \/ status (respond env request) = 500
       \/ status (respond env request) = 416
       \/ status (respond env request) = 404))
  \/ exists fileName fileSize sv response content,
       Serves env request fileName fileSize sv response content.
Proof.
  unfold respond.
  destruct (file request) as [[|c fileName']|] eqn:Hfile; simpl; auto.
  destruct (getfileMediaInfo env _) as [[meta|]|] eqn:Hmeta; simpl; auto.
  destruct (ContentLength meta) as [fileSize|] eqn:Hlen; simpl; auto.
  assert (fileSize = 0 \/ fileSize <> 0) as [-> | Hnz] by lia; [auto|].
  destruct (settleRange (range request) fileSize) as [sv|] eqn:Hsettle.
  2: { destruct fileSize; simpl; auto 6. }
  destruct (getFileRange env _ _ _) as [[response|]|] eqn:Hget.
  2, 3: destruct fileSize; simpl; auto 6.
  destruct (Body response) as [content|] eqn:Hbody.
  2: { destruct fileSize; simpl; auto 6. }
  destruct (acceptsHeaders env
              (responseHeaders env (String c fileName') fileSize sv
                               (ContentType response))) eqn:Haccept.
  2: { destruct fileSize; cbv zeta; rewrite ?Haccept; simpl; auto 6. }
  right. exists (String c fileName'), fileSize, sv, response, content.
  repeat split; try assumption. exists meta. auto.
Qed.

(** What a settled range looks like. *)
Lemma settleRange_valid (header : option string) fileSize sv :
  settleRange header fileSize = Some sv ->
  isPartialContent sv = true ->
  0 <= servedStart sv <= servedEnd sv /\ servedEnd sv <= fileSize - 1.
Proof.
  unfold settleRange. intros H Hpartial.
  destruct header as [[|c h]|].
  1, 3: injection H as <-; revert Hpartial; simpl;
        destruct (fileSize <? 5 * 1024 * 1024),
                 (fileSize <? 15 * 1024 * 1024);
        intros Hp; apply Z.ltb_lt in Hp; lia.
  destruct (parseRange _ fileSize) as [parsed|] eqn:Hparse; [|discriminate].
  injection H as <-. simpl.
  apply parseRange_some_inv in Hparse as (ds & de & _ & _ & Hb & Hlt).
  destruct parsed as [s e]. simpl in *.
  apply (optimizeRange_bounds (mkRange s e) fileSize (s =? 0)); simpl; lia.
Qed.

End Handler.

(** ** The rate limiter *)

Section RateLimiter.
Implicit Types (m : gmap string RateLimitEntry) (e : RateLimitEntry).
Implicit Types (id who : string).

Lemma cleanup_lookup_Some now m id e :
  cleanupRateLimit now m !! id = Some e <-> m !! id = Some e /\ now <= resetTime e.
Proof.
  unfold cleanupRateLimit. rewrite map_lookup_filter_Some. simpl. split.
  - intros [H1 H2]. split; [exact H1 | lia].
  - intros [H1 H2]. split; [exact H1 | lia].
Qed.

Lemma cleanup_lookup_None now m id :
  m !! id = None -> cleanupRateLimit now m !! id = None.
Proof.
  intros H. destruct (cleanupRateLimit now m !! id) as [e|] eqn:He; [|reflexivity].
  apply cleanup_lookup_Some in He as [He _]. congruence.
Qed.

(** The four ways a call goes, by the entry of the identifier. *)
Lemma checkRateLimit_fresh nowCleanup now id m :
  m !! id = None ->
  checkRateLimit nowCleanup now id m
  = (true, <[id := mkEntry 1 (now + 60000)]> (cleanupRateLimit nowCleanup m)).
Proof.
  intros H. unfold checkRateLimit. rewrite (cleanup_lookup_None _ _ _ H).
  reflexivity.
Qed.

Lemma checkRateLimit_expired nowCleanup now id m e :
  m !! id = Some e -> resetTime e < now ->
  checkRateLimit nowCleanup now id m
  = (true, <[id := mkEntry 1 (now + 60000)]> (cleanupRateLimit nowCleanup m)).
Proof.
  intros H Hlate. unfold checkRateLimit.
  destruct (cleanupRateLimit nowCleanup m !! id) as [e'|] eqn:He; [|reflexivity].
  apply cleanup_lookup_Some in He as [He _].
  assert (e' = e) as -> by congruence.
  destruct (Z.gtb_spec now (resetTime e)); [reflexivity | lia].
Qed.

Lemma checkRateLimit_admit nowCleanup now id m e :
  m !! id = Some e -> nowCleanup <= resetTime e -> now <= resetTime e ->
  count e < 30 ->
  checkRateLimit nowCleanup now id m
  = (true, <[id := mkEntry (count e + 1) (resetTime e)]>
             (cleanupRateLimit nowCleanup m)).
Proof.
  intros H Hc Hn Hcount. unfold checkRateLimit.
  rewrite (proj2 (cleanup_lookup_Some _ _ _ _) (conj H Hc)).
  destruct (Z.gtb_spec now (resetTime e)); [lia|].
  destruct (Z.geb_spec (count e) 30); [lia | reflexivity].
Qed.

Lemma checkRateLimit_reject nowCleanup now id m e :
  m !! id = Some e -> nowCleanup <= resetTime e -> now <= resetTime e ->
  30 <= count e ->
  checkRateLimit nowCleanup now id m = (false, cleanupRateLimit nowCleanup m).
Proof.
  intros H Hc Hn Hcount. unfold checkRateLimit.
  rewrite (proj2 (cleanup_lookup_Some _ _ _ _) (conj H Hc)).
  destruct (Z.gtb_spec now (resetTime e)); [lia|].
  destruct (Z.geb_spec (count e) 30); [reflexivity | lia].
Qed.

(** The table is only ever swept and written at the identifier. *)
Lemma checkRateLimit_table nowCleanup now id m :
  (checkRateLimit nowCleanup now id m).2 = cleanupRateLimit nowCleanup m
  \/ exists e, (checkRateLimit nowCleanup now id m).2
              = <[id := e]> (cleanupRateLimit nowCleanup m).
Proof.
  unfold checkRateLimit.
  destruct (cleanupRateLimit nowCleanup m !! id) as [e|]; [|simpl; eauto].
  destruct (now >? resetTime e); [simpl; eauto|].
  destruct (count e >=? 30); simpl; eauto.
Qed.

(** A call for another identifier leaves a live entry alone. *)
Lemma checkRateLimit_other nowCleanup now who id m e :
  who <> id -> m !! id = Some e -> nowCleanup <= resetTime e ->
  (checkRateLimit nowCleanup now who m).2 !! id = Some e.
Proof.
  intros Hne H Hc.
  assert (cleanupRateLimit nowCleanup m !! id = Some e) as Hkept
    by (apply cleanup_lookup_Some; auto).
  destruct (checkRateLimit_table nowCleanup now who m) as [-> | [e' ->]].
  - exact Hkept.
  - rewrite lookup_insert_ne by exact Hne. exact Hkept.
Qed.

(** After a call, the entry of the identifier is not older than the second
    clock reading and no other entry is older than the first. *)
Lemma checkRateLimit_entries nowCleanup now id m who e :
  (checkRateLimit nowCleanup now id m).2 !! who = Some e ->
  (who = id /\ now <= resetTime e) \/ (who <> id /\ nowCleanup <= resetTime e).
Proof.
  unfold checkRateLimit.
  destruct (decide (who = id)) as [-> | Hne].
  - intros H. left. split; [reflexivity|]. revert H.
    destruct (cleanupRateLimit nowCleanup m !! id) as [cur|] eqn:Hcur.
    + destruct (Z.gtb_spec now (resetTime cur)); simpl.
      * rewrite lookup_insert_eq. intros [= <-]. simpl. lia.
      * destruct (count cur >=? 30); simpl.
        -- rewrite Hcur. intros [= <-]. lia.
        -- rewrite lookup_insert_eq. intros [= <-]. simpl. lia.
    + simpl. rewrite lookup_insert_eq. intros [= <-]. simpl. lia.
  - intros H. right. split; [exact Hne|].
    assert (cleanupRateLimit nowCleanup m !! who = Some e) as Hkept.
    { revert H. destruct (cleanupRateLimit nowCleanup m !! id) as [cur|].
      - destruct (now >? resetTime cur); simpl;
          [|destruct (count cur >=? 30); simpl];
          rewrite ?lookup_insert_ne by congruence; auto.
      - simpl. rewrite lookup_insert_ne by congruence. auto. }
    apply cleanup_lookup_Some in Hkept. tauto.
Qed.

(** C9, as the code has it.  A call of [checkRateLimit] sweeps the whole
    table first, with the clock reading [cleanupRateLimit] takes.  In the
    table the call leaves, every entry of another identifier has
    [resetTime] at or after that first reading, and the entry of the
    identifier checked has [resetTime] at or after the second reading,
    which [checkRateLimit] takes itself.  When the two readings are the
    same, every entry has [resetTime >= now]. *)
Theorem checkRateLimit_no_stale_at_sweep nowCleanup now id m who e :
  (checkRateLimit nowCleanup now id m).2 !! who = Some e ->
  (who <> id -> nowCleanup <= resetTime e)
  /\ (who = id -> now <= resetTime e)
  /\ (nowCleanup = now -> now <= resetTime e).
Proof.
  intros H. apply checkRateLimit_entries in H.
  destruct H as [[Hid Hnow] | [Hne Hclean]]; repeat split; intros; try lia;
    contradiction.
Qed.

Lemma checkRateLimit_no_stale_at_sweep_witness :
  ("b"%string <> "a"%string -> 100 <= resetTime (mkEntry 7 150))
  /\ ("b"%string = "a"%string -> 101 <= resetTime (mkEntry 7 150))
  /\ (100 = 101 -> 101 <= resetTime (mkEntry 7 150)).
Proof.
  apply (checkRateLimit_no_stale_at_sweep 100 101 "a"
           (<["b" := mkEntry 7 150]> (<["c" := mkEntry 3 99]> ∅)) "b"
           (mkEntry 7 150)).
  vm_compute. reflexivity.
Defined.

(** C9 as stated fails.  The clock reads 100 in the sweep and 101 in
    [checkRateLimit]: the entry of another identifier with [resetTime] 100
    is not swept, and it is stale at 101 when the call returns. *)
Lemma checkRateLimit_stale_entry_survives :
  ~ (forall who e,
       (checkRateLimit 100 101 "a" (<["b"%string := mkEntry 1 100]> ∅)).2
         !! who = Some e ->
       101 <= resetTime e).
Proof.
  intros H. specialize (H "b"%string (mkEntry 1 100)).
  assert (101 <= resetTime (mkEntry 1 100)) as Hle
    by (apply H; vm_compute; reflexivity).
  simpl in Hle. lia.
Qed.

(** With two different clock readings an entry of another identifier that
    was live at the first reading stays, whatever the second reading is. *)
Example checkRateLimit_clock_tick :
  (checkRateLimit 100 101 "a" (<["b"%string := mkEntry 1 100]> ∅)).2
    !! "b"%string
  = Some (mkEntry 1 100).
Proof. vm_compute. reflexivity. Qed.

Lemma checkRateLimitCalls_cons nowCleanup now who
    (calls : list (Z * Z * string)) m :
  checkRateLimitCalls ((nowCleanup, now, who) :: calls) m
  = let r := checkRateLimit nowCleanup now who m in
    (r.1 :: (checkRateLimitCalls calls r.2).1, (checkRateLimitCalls calls r.2).2).
Proof.
  simpl. destruct (checkRateLimit nowCleanup now who m) as [a m']. simpl.
  destruct (checkRateLimitCalls calls m') as [rest final]. reflexivity.
Qed.

Lemma fmap_seq_shift (f g : nat -> bool) (n a : nat) :
  (forall i, f (S i) = g i) -> f <$> seq (S a) n = g <$> seq a n.
Proof.
  intros Hfg. revert a. induction n as [|n IH]; intros a; [reflexivity|].
  simpl. rewrite Hfg. f_equal. apply IH.
Qed.

(** While the window of [id] is open: the calls of [id] are admitted until
    the count reaches 30 and refused from then on, whatever the other
    identifiers do in between. *)
Lemma checkRateLimitCalls_open_window (later : list (Z * Z * string)) :
  forall m id (c r : Z),
    m !! id = Some (mkEntry c r) -> c <= 30 ->
    Forall (fun call => call.1.1 <= r /\ call.1.2 <= r) later ->
    let out := checkRateLimitCalls later m in
    let mine := answersFor id later out.1 in
    mine = (fun i : nat => c + Z.of_nat i <? 30) <$> seq 0 (length mine)
    /\ length mine = length (filter (fun call => call.2 = id) later)
    /\ out.2 !! id = Some (mkEntry (Z.min 30 (c + Z.of_nat (length mine))) r).
Proof.
  induction later as [|[[nowCleanup now] who] later IH];
    intros m id c r Hentry Hc Hall.
  { simpl. rewrite Hentry. repeat split. do 2 f_equal. lia. }
  apply Forall_cons in Hall as [[Hclean Hnow] Hall]. simpl in Hclean, Hnow.
  cbv zeta. rewrite checkRateLimitCalls_cons. cbv zeta.
  cbn [fst snd answersFor]. rewrite filter_cons. cbn [snd].
  destruct (String.eqb_spec who id) as [-> | Hne].
  - rewrite decide_True by reflexivity.
    destruct (Z.lt_ge_cases c 30) as [Hlt | Hge].
    + rewrite (checkRateLimit_admit _ _ _ _ _ Hentry) by (simpl; lia).
      cbn [fst snd count resetTime].
      edestruct (IH (<[id := mkEntry (c + 1) r]> (cleanupRateLimit nowCleanup m))
                    id (c + 1) r) as (Hmine & Hlen & Hfinal);
        [apply lookup_insert_eq | lia | exact Hall |].
      cbv zeta in Hmine, Hlen, Hfinal. set (mine := answersFor _ _ _) in *.
      split; [|split].
      * cbn [length seq fmap list_fmap]. f_equal.
        -- symmetry. apply Z.ltb_lt. lia.
        -- rewrite Hmine at 1. symmetry. apply fmap_seq_shift.
           intros i. f_equal. lia.
      * cbn [length]. rewrite Hlen. reflexivity.
      * rewrite Hfinal. cbn [length]. do 2 f_equal. lia.
    + rewrite (checkRateLimit_reject _ _ _ _ _ Hentry) by (simpl; lia).
      cbn [fst snd].
      edestruct (IH (cleanupRateLimit nowCleanup m) id c r)
        as (Hmine & Hlen & Hfinal);
        [apply cleanup_lookup_Some; split; [exact Hentry | simpl; lia]
        | lia | exact Hall |].
      cbv zeta in Hmine, Hlen, Hfinal. set (mine := answersFor _ _ _) in *.
      split; [|split].
      * cbn [length seq fmap list_fmap]. f_equal.
        -- symmetry. apply Z.ltb_ge. lia.
        -- rewrite Hmine at 1. symmetry. apply fmap_seq_shift.
           intros i. destruct (Z.ltb_spec (c + Z.of_nat (S i)) 30),
                              (Z.ltb_spec (c + Z.of_nat i) 30); (reflexivity || lia).
      * cbn [length]. rewrite Hlen. reflexivity.
      * rewrite Hfinal. cbn [length]. do 2 f_equal. lia.
  - rewrite decide_False by exact Hne.
    apply (IH _ id c r); [|exact Hc | exact Hall].
    apply checkRateLimit_other; [exact Hne | exact Hentry | simpl; lia].
Qed.

(** C7.  From a table without the identifier: a first call at time [now0],
    then any calls (of this and of other identifiers) whose clock readings
    do not exceed [now0 + 60000].  The answers to the identifier are
    [true] for its first 30 calls and [false] for every later one; the
    entry then holds the number of its calls, at most 30 (a refused call
    leaves the count alone), and [resetTime = now0 + 60000].  A call once
    the clock exceeds that [resetTime] is admitted and leaves the entry
    with count 1 and [resetTime = now1 + 60000]. *)
Theorem checkRateLimit_window m id (nowCleanup0 now0 : Z)
    (later : list (Z * Z * string)) (nowCleanup1 now1 : Z) :
  m !! id = None ->
  Forall (fun call => call.1.1 <= now0 + 60000 /\ call.1.2 <= now0 + 60000)
         later ->
  now0 + 60000 < now1 ->
  let calls := (nowCleanup0, now0, id) :: later in
  let out := checkRateLimitCalls calls m in
  let mine := answersFor id calls out.1 in
  mine = (fun i : nat => bool_decide (i < 30)%nat) <$> seq 0 (length mine)
  /\ length mine = S (length (filter (fun call => call.2 = id) later))
  /\ out.2 !! id
     = Some (mkEntry (Z.min 30 (Z.of_nat (length mine))) (now0 + 60000))
  /\ (checkRateLimit nowCleanup1 now1 id out.2).1 = true
  /\ (checkRateLimit nowCleanup1 now1 id out.2).2 !! id
     = Some (mkEntry 1 (now1 + 60000)).
Proof.
  intros Hfresh Hall Hlate. cbv zeta.
  rewrite checkRateLimitCalls_cons. cbv zeta.
  cbn [fst snd answersFor]. rewrite String.eqb_refl.
  rewrite (checkRateLimit_fresh _ _ _ _ Hfresh). cbn [fst snd].
  edestruct (checkRateLimitCalls_open_window later
               (<[id := mkEntry 1 (now0 + 60000)]>
                  (cleanupRateLimit nowCleanup0 m)) id 1 (now0 + 60000))
    as (Hmine & Hlen & Hfinal);
    [apply lookup_insert_eq | lia | exact Hall |].
  cbv zeta in Hmine, Hlen, Hfinal. set (mine := answersFor _ _ _) in *.
  set (final := (checkRateLimitCalls later _).2) in *.
  split; [|split; [|split]].
  - cbn [length seq fmap list_fmap]. f_equal.
    rewrite Hmine at 1. symmetry. apply fmap_seq_shift.
    intros i. destruct (Z.ltb_spec (1 + Z.of_nat i) 30);
      [rewrite bool_decide_eq_true_2 | rewrite bool_decide_eq_false_2];
      (reflexivity || lia).
  - cbn [length]. rewrite Hlen. reflexivity.
  - rewrite Hfinal. cbn [length]. do 2 f_equal. lia.
  - rewrite (checkRateLimit_expired _ _ _ _ _ Hfinal) by (simpl; lia).
    split; [reflexivity|]. apply lookup_insert_eq.
Qed.

Lemma checkRateLimit_window_witness :
  let later := replicate 30 (1000, 1000, "a"%string) ++ [(2000, 2000, "b"%string)] in
  let calls := (0, 0, "a"%string) :: later in
  let out := checkRateLimitCalls calls ∅ in
  let mine := answersFor "a" calls out.1 in
  mine = (fun i : nat => bool_decide (i < 30)%nat) <$> seq 0 (length mine)
  /\ length mine = S (length (filter (fun call => call.2 = "a"%string) later))
  /\ out.2 !! "a"%string
     = Some (mkEntry (Z.min 30 (Z.of_nat (length mine))) (0 + 60000))
  /\ (checkRateLimit 60001 60001 "a" out.2).1 = true
  /\ (checkRateLimit 60001 60001 "a" out.2).2 !! "a"%string
     = Some (mkEntry 1 (60001 + 60000)).
Proof.
  apply (checkRateLimit_window ∅ "a" 0 0
           (replicate 30 (1000, 1000, "a"%string) ++ [(2000, 2000, "b"%string)])
           60001 60001).
  - reflexivity.
  - simpl. repeat (constructor; [simpl; lia|]). constructor.
  - lia.
Defined.

Example checkRateLimit_31_calls :
  (checkRateLimitCalls (replicate 31 (0, 0, "a"%string)) ∅).1
  = replicate 30 true ++ [false].
Proof. vm_compute. reflexivity. Qed.

End RateLimiter.

Module HandlerFacts.
Import Grammar.

(** C4, as the code has it.  For an object of 4,194,304 bytes and a request
    without a [Range] header, the handler applies the first-request policy
    of the tier below 5MB: the served range starts at byte 0, covers at
    least the first 1MB and stops short of the last byte, the status is
    206, and the cache policy is the one of a partial answer,
    [public, max-age=31536000, immutable]. *)
Theorem GET_no_range_4MB {B} (env : Env B) (request : Request)
    (rateLimitMap : gmap string RateLimitEntry) (fileName : string)
    (sv : Served) (response : RangeOutput B) (content : B) :
  range request = None ->
  Serves env request fileName 4194304 sv response content ->
  let answer := (GET env request rateLimitMap).1 in
  servedStart sv = 0
  /\ 1048575 <= servedEnd sv < 4194304 - 1
  /\ isFirstRequest sv = true
  /\ status answer = 206
  /\ headers answer !! "Cache-Control"%string
     = Some "public, max-age=31536000, immutable"%string.
Proof.
  intros Hrange Hserves. simpl.
  rewrite (respond_serves _ _ _ _ _ _ _ Hserves).
  destruct Hserves as (_ & _ & _ & _ & Hsettle & _).
  rewrite Hrange in Hsettle. injection Hsettle as <-. simpl.
  rewrite responseHeaders_cacheControl.
  repeat split; try reflexivity; lia.
Qed.

Lemma GET_no_range_4MB_witness :
  let answer := (GET (oneObject 4194304) (mkRequest (Some "a.mp3"%string) None) ∅).1 in
  servedStart (mkServed 0 1048576 true true) = 0
  /\ 1048575 <= servedEnd (mkServed 0 1048576 true true) < 4194304 - 1
  /\ isFirstRequest (mkServed 0 1048576 true true) = true
  /\ status answer = 206
  /\ headers answer !! "Cache-Control"%string
     = Some "public, max-age=31536000, immutable"%string.
Proof.
  apply (GET_no_range_4MB (oneObject 4194304)
           (mkRequest (Some "a.mp3"%string) None) ∅ "a.mp3"
           (mkServed 0 1048576 true true) (mkRangeOutput (Some tt) None) tt).
  - reflexivity.
  - serves_by_computation.
Defined.

(** C4 as stated fails: the answer to that request carries the range
    0-1048576 and the cache policy of a partial answer, not the range
    0-1048575 and the policy [max-age=86400]. *)
Lemma GET_no_range_4MB_not_as_stated :
  let answer := (GET (oneObject 4194304) (mkRequest (Some "a.mp3"%string) None) ∅).1 in
  status answer = 206
  /\ headers answer !! "Content-Range"%string
     = Some "bytes 0-1048576/4194304"%string
  /\ headers answer !! "Cache-Control"%string
     = Some "public, max-age=31536000, immutable"%string
  /\ ~ (headers answer !! "Content-Range"%string
        = Some "bytes 0-1048575/4194304"%string
        /\ status answer = 206
        /\ headers answer !! "Cache-Control"%string
           = Some "public, max-age=86400, stale-while-revalidate=3600"%string).
Proof.
  vm_compute. repeat split; try reflexivity.
  intros (H & _). discriminate H.
Qed.

Example GET_unsatisfiable_range :
  (GET (oneObject 4194304)
       (mkRequest (Some "a.mp3"%string) (Some "bytes=5000000-"%string)) ∅).1
  = mkResponse 416 ∅ (Text "Invalid range").
Proof. reflexivity. Qed.

(** C6.  The [Cache-Control] header of every streamed answer is the entry
    of the three-way table for the handler's [isFirstRequest], the object
    size and [isPartialContent]: nothing else of the request, the file or
    the storage answer enters into it. *)
Theorem GET_cacheControl_table {B} (env : Env B) (request : Request)
    (rateLimitMap : gmap string RateLimitEntry) (fileName : string)
    (fileSize : Z) (sv : Served) (response : RangeOutput B) (content : B) :
  Serves env request fileName fileSize sv response content ->
  headers (GET env request rateLimitMap).1 !! "Cache-Control"%string
  = Some (CacheTable.policy (isFirstRequest sv) fileSize (isPartialContent sv)).
Proof.
  intros Hserves. simpl.
  rewrite (respond_serves _ _ _ _ _ _ _ Hserves). simpl.
  rewrite responseHeaders_cacheControl. f_equal.
  unfold cacheControl, CacheTable.policy.
  destruct (isFirstRequest sv), (isPartialContent sv),
           (Z.gtb_spec fileSize (10 * 1024 * 1024)); simpl;
    repeat case_bool_decide; try reflexivity;
    exfalso; intuition (congruence || lia).
Qed.

Lemma GET_cacheControl_table_witness :
  headers (GET (oneObject 20971520) (mkRequest (Some "a.mp3"%string) None) ∅).1
    !! "Cache-Control"%string
  = Some (CacheTable.policy true 20971520 true).
Proof.
  apply (GET_cacheControl_table (oneObject 20971520)
           (mkRequest (Some "a.mp3"%string) None) ∅ "a.mp3" 20971520
           (mkServed 0 3145728 true true) (mkRangeOutput (Some tt) None) tt).
  serves_by_computation.
Defined.

(** C8.  [GET] does not consult the rate limiter: its answer is the same
    under any two rate-limit tables, it leaves the table as it found it,
    and no answer has status 429. *)
Theorem GET_ignores_rateLimitMap {B} (env : Env B) (request : Request)
    (rateLimitMap rateLimitMap' : gmap string RateLimitEntry) :
  (GET env request rateLimitMap).1 = (GET env request rateLimitMap').1
  /\ (GET env request rateLimitMap).2 = rateLimitMap
  /\ status (GET env request rateLimitMap).1 <> 429.
Proof.
  split; [reflexivity|]. split; [reflexivity|]. simpl.
  destruct (respond_inv env request)
    as [[_ Hstatus] | (fileName & fileSize & sv & response & content & Hserves)].
  - lia.
  - rewrite (respond_serves _ _ _ _ _ _ _ Hserves). simpl.
    destruct (isPartialContent sv); lia.
Qed.

(** C10.  Whenever the answer carries [X-Next-Range], the hint is the range
    from [end + 1] to some [nextEnd] with [end + 1 <= nextEnd <= fileSize - 1],
    and [parseRange] reads it back, for the same object, as exactly that
    range. *)
Theorem GET_nextRange_parses {B} (env : Env B) (request : Request)
    (rateLimitMap : gmap string RateLimitEntry) (hint : string) :
  headers (GET env request rateLimitMap).1 !! "X-Next-Range"%string = Some hint ->
  exists fileName fileSize sv response content nextEnd,
    Serves env request fileName fileSize sv response content
    /\ hint = rangeText (Js.numToString (servedEnd sv + 1))
                        (Js.numToString nextEnd)
    /\ servedEnd sv + 1 <= nextEnd <= fileSize - 1
    /\ parseRange hint fileSize = Some (mkRange (servedEnd sv + 1) nextEnd).
Proof.
  simpl. intros Hhint.
  destruct (respond_inv env request)
    as [[Hempty _] | (fileName & fileSize & sv & response & content & Hserves)].
  { rewrite Hempty, lookup_empty in Hhint. discriminate. }
  rewrite (respond_serves _ _ _ _ _ _ _ Hserves) in Hhint. simpl in Hhint.
  rewrite responseHeaders_nextRange in Hhint.
  destruct (isPartialContent sv) eqn:Hpartial; [|discriminate].
  destruct (Z.ltb_spec (servedEnd sv) (fileSize - 1)) as [Hmore|]; [|discriminate].
  simpl in Hhint. injection Hhint as <-.
  pose proof Hserves as (_ & _ & _ & _ & Hsettle & _).
  destruct (settleRange_valid _ _ _ Hsettle Hpartial) as [Hvalid _].
  set (nextEnd := Z.min _ _).
  assert (servedEnd sv + 1 <= nextEnd <= fileSize - 1) as Hnext
    by (subst nextEnd; lia).
  exists fileName, fileSize, sv, response, content, nextEnd.
  split; [exact Hserves|]. split; [reflexivity|]. split; [exact Hnext|].
  apply (parseRange_rendered (Some (servedEnd sv + 1)) (Some nextEnd)); simpl; lia.
Qed.

Lemma GET_nextRange_parses_witness :
  exists fileName fileSize sv response content nextEnd,
    Serves (oneObject 4194304)
           (mkRequest (Some "a.mp3"%string)
                      (Some "bytes=2097152-2097663"%string))
           fileName fileSize sv response content
    /\ "bytes=2621440-3145727"%string
       = rangeText (Js.numToString (servedEnd sv + 1)) (Js.numToString nextEnd)
    /\ servedEnd sv + 1 <= nextEnd <= fileSize - 1
    /\ parseRange "bytes=2621440-3145727" fileSize
       = Some (mkRange (servedEnd sv + 1) nextEnd).
Proof.
  apply (GET_nextRange_parses (oneObject 4194304)
           (mkRequest (Some "a.mp3"%string)
                      (Some "bytes=2097152-2097663"%string)) ∅).
  vm_compute. reflexivity.
Defined.

End HandlerFacts.

(** * Further properties of the code *)

(** ** [optimizeRange] *)

Section OptimizeRangeMore.

(** The steady-state policy, with the chunk size of the tier named. *)
Lemma optimizeRange_steady_eq (requested : ByteRange) (fileSize : Z)
    (isFirstRequest : bool) :
  isFirstRequest && (start requested =? 0) = false ->
  exists optimalChunkSize,
    512 * 1024 <= optimalChunkSize <= 1536 * 1024
    /\ optimizeRange requested fileSize isFirstRequest
       = if (end_ requested - start requested + 1 <? optimalChunkSize)
            && (end_ requested <? fileSize - 1)
         then mkRange (start requested)
                      (Z.min (start requested + optimalChunkSize - 1)
                             (fileSize - 1))
         else requested.
Proof.
  intros Hsteady. unfold optimizeRange. rewrite Hsteady.
  eexists. split; [|reflexivity].
  destruct (fileSize <? 5 * 1024 * 1024), (fileSize <? 15 * 1024 * 1024); lia.
Qed.

(** X1.  [optimizeRange] is idempotent: optimizing the range it returned,
    for the same object and flag, returns that range again. *)
Theorem optimizeRange_idempotent (requested : ByteRange) (fileSize : Z)
    (isFirstRequest : bool) :
  optimizeRange (optimizeRange requested fileSize isFirstRequest)
                fileSize isFirstRequest
  = optimizeRange requested fileSize isFirstRequest.
Proof.
  destruct (isFirstRequest && (start requested =? 0)) eqn:Hpolicy.
  - apply andb_true_iff in Hpolicy as [-> Hzero]. apply Z.eqb_eq in Hzero.
    rewrite (optimizeRange_first requested fileSize Hzero).
    apply optimizeRange_first. reflexivity.
  - destruct (optimizeRange_steady_eq _ fileSize _ Hpolicy)
      as (opt & Hopt & Heq).
    assert (start (optimizeRange requested fileSize isFirstRequest)
            = start requested) as Hstart.
    { rewrite Heq.
      destruct ((end_ requested - start requested + 1 <? opt) && _);
        reflexivity. }
    assert (isFirstRequest
            && (start (optimizeRange requested fileSize isFirstRequest) =? 0)
            = false) as Hpolicy' by (rewrite Hstart; exact Hpolicy).
    unfold optimizeRange at 1. rewrite Hpolicy'. rewrite Hstart.
    unfold optimizeRange in Heq |- *. rewrite Hpolicy in Heq |- *.
    set (chunk := if fileSize <? 5 * 1024 * 1024 then _ else _) in *.
    assert (512 * 1024 <= chunk <= 1536 * 1024) as Hchunk.
    { subst chunk.
      destruct (fileSize <? 5 * 1024 * 1024), (fileSize <? 15 * 1024 * 1024);
        lia. }
    cbv zeta.
    destruct (Z.ltb_spec (end_ requested - start requested + 1) chunk) as [Hsmall|Hbig];
      destruct (Z.ltb_spec (end_ requested) (fileSize - 1)) as [Hmore|Heof];
      cbn [andb start end_].
    + destruct (Z.ltb_spec (Z.min (start requested + chunk - 1) (fileSize - 1)
                            - start requested + 1) chunk);
        destruct (Z.ltb_spec (Z.min (start requested + chunk - 1) (fileSize - 1))
                             (fileSize - 1));
        cbn [andb]; try reflexivity; lia.
    + rewrite (proj2 (Z.ltb_ge _ _) Heof), andb_false_r. reflexivity.
    + rewrite (proj2 (Z.ltb_ge _ _) Hbig). reflexivity.
    + rewrite (proj2 (Z.ltb_ge _ _) Hbig). reflexivity.
Qed.

(** X2.  Whatever is requested, the range [optimizeRange] returns is no
    longer than the requested one or than 3MB plus one byte, whichever is
    larger. *)
Theorem optimizeRange_length_bound (requested : ByteRange) (fileSize : Z)
    (isFirstRequest : bool) :
  let served := optimizeRange requested fileSize isFirstRequest in
  end_ served - start served + 1
  <= Z.max (end_ requested - start requested + 1) (3 * 1024 * 1024 + 1).
Proof.
  cbv zeta.
  destruct (isFirstRequest && (start requested =? 0)) eqn:Hpolicy.
  - apply andb_true_iff in Hpolicy as [-> Hzero]. apply Z.eqb_eq in Hzero.
    rewrite (optimizeRange_first requested fileSize Hzero). cbn [start end_].
    destruct (fileSize <? 5 * 1024 * 1024), (fileSize <? 15 * 1024 * 1024);
      lia.
  - destruct (optimizeRange_steady_eq _ fileSize _ Hpolicy)
      as (opt & Hopt & ->).
    destruct ((end_ requested - start requested + 1 <? opt) && _);
      cbn [start end_]; lia.
Qed.

End OptimizeRangeMore.

(** ** The exits of the handler *)

Module HandlerExits.

Lemma sized_dec {B} (env : Env B) (request : Request) :
  (exists fileName fileSize, Sized env request fileName fileSize)
  \/ (forall fileName fileSize, ~ Sized env request fileName fileSize).
Proof.
  destruct (file request) as [fileName|] eqn:Hfile.
  2: { right. intros f n (H & _). congruence. }
  destruct (Js.truthy fileName) eqn:Hname.
  2: { right. intros f n (H & H' & _). congruence. }
  destruct (getfileMediaInfo env fileName) as [[meta|]|] eqn:Hmeta.
  2, 3: right; intros f n (H & _ & (meta' & H' & _) & _); congruence.
  destruct (ContentLength meta) as [fileSize|] eqn:Hlen.
  2: { right. intros f n (H & _ & (meta' & H' & H'') & _). congruence. }
  destruct (Z.eq_dec fileSize 0) as [-> | Hnz].
  { right. intros f n (H & _ & (meta' & H' & H'') & Hn). congruence. }
  left. exists fileName, fileSize. repeat split; try assumption.
  exists meta. auto.
Qed.

Lemma sized_unique {B} (env : Env B) (request : Request) f1 n1 f2 n2 :
  Sized env request f1 n1 -> Sized env request f2 n2 -> f1 = f2 /\ n1 = n2.
Proof.
  intros (H1 & _ & (m1 & Hm1 & Hl1) & _) (H2 & _ & (m2 & Hm2 & Hl2) & _).
  assert (f1 = f2) as -> by congruence. split; [reflexivity|]. congruence.
Qed.

(** The handler up to the storage call for the bytes. *)
Lemma respond_sized {B} (env : Env B) (request : Request) fileName fileSize :
  Sized env request fileName fileSize ->
  respond env request
  = match settleRange (range request) fileSize with
    | None => mkResponse 416 ∅ (Text "Invalid range")
    | Some sv =>
        match getFileRange env fileName (servedStart sv) (servedEnd sv) with
        | Thrown => jsonError 500 "Internal server error"
        | Returned None => jsonError 404 "Audio file not found"
        | Returned (Some response) =>
            match Body response with
            | None => jsonError 404 "Audio file not found"
            | Some content =>
                if acceptsHeaders env
                     (responseHeaders env fileName fileSize sv
                                      (ContentType response))
                then mkResponse (if isPartialContent sv then 206 else 200)
                                (responseHeaders env fileName fileSize sv
                                                 (ContentType response))
                                (Stream content)
                else jsonError 500 "Internal server error"
            end
        end
    end.
Proof.
  intros (Hfile & Hname & (meta & Hmeta & Hlen) & Hnz).
  unfold respond. rewrite Hfile.
  destruct fileName as [|c fileName']; [discriminate|].
  rewrite Hmeta. simpl. rewrite Hlen.
  destruct fileSize; [congruence | reflexivity | reflexivity].
Qed.

(** Once the range is settled the answer is 500, 404, 200 or 206. *)
Lemma respond_settled {B} (env : Env B) (request : Request) fileName fileSize
    sv :
  Sized env request fileName fileSize ->
  settleRange (range request) fileSize = Some sv ->
  status (respond env request) = 500 \/ status (respond env request) = 404
  \/ status (respond env request) = 200 \/ status (respond env request) = 206.
Proof.
  intros Hs Hsettle. rewrite (respond_sized env request _ _ Hs), Hsettle.
  destruct (getFileRange _ _ _ _) as [[out|]|]; cbn [status jsonError]; auto.
  destruct (Body out); cbn [status jsonError]; auto.
  destruct (acceptsHeaders _ _); cbn [status jsonError]; auto.
  destruct (isPartialContent sv); auto.
Qed.

(** Without a sized file the answer is 400 or 500. *)
Lemma respond_unsized {B} (env : Env B) (request : Request) :
  (forall fileName fileSize, ~ Sized env request fileName fileSize) ->
  headers (respond env request) = ∅
  /\ ((status (respond env request) = 400
       /\ (file request = None \/ file request = Some ""%string))
      \/ (status (respond env request) = 500
          /\ exists fileName, file request = Some fileName
                              /\ Js.truthy fileName = true)).
Proof.
  intros Hno. unfold respond.
  destruct (file request) as [[|c fileName']|] eqn:Hfile; simpl; auto.
  assert (exists fileName, Some (String c fileName') = Some fileName
                           /\ Js.truthy fileName = true) as Hnamed
    by (eexists; split; reflexivity).
  destruct (getfileMediaInfo env _) as [[meta|]|] eqn:Hmeta; simpl; auto.
  destruct (ContentLength meta) as [fileSize|] eqn:Hlen; simpl; auto.
  destruct (Z.eq_dec fileSize 0) as [-> | Hnz]; [auto|].
  exfalso. apply (Hno (String c fileName') fileSize).
  repeat split; try assumption. exists meta. auto.
Qed.

Lemma settleRange_None (header : option string) (fileSize : Z) :
  settleRange header fileSize = None <->
  exists c h, header = Some (String c h)
              /\ parseRange (String c h) fileSize = None.
Proof.
  unfold settleRange. split.
  - destruct header as [[|c h]|]; try discriminate.
    destruct (parseRange _ _) eqn:Hp; [discriminate|]. eauto.
  - intros (c & h & -> & ->). reflexivity.
Qed.

(** X3.  The client errors.  The answer is 400 exactly when the [file]
    parameter is missing or empty.  It is 416 exactly when the file is
    named, the storage reports a non-zero size for it, the [Range] header
    is not empty and [parseRange] rejects it. *)
Theorem GET_client_errors {B} (env : Env B) (request : Request)
    (rateLimitMap : gmap string RateLimitEntry) :
  (status (GET env request rateLimitMap).1 = 400
   <-> file request = None \/ file request = Some ""%string)
  /\ (status (GET env request rateLimitMap).1 = 416
      <-> exists fileName fileSize c h,
            Sized env request fileName fileSize
            /\ range request = Some (String c h)
            /\ parseRange (String c h) fileSize = None).
Proof.
  cbn [GET fst].
  destruct (sized_dec env request) as [(fileName & fileSize & Hs) | Hno].
  - pose proof (respond_sized env request _ _ Hs) as Heq.
    assert (file request <> None /\ file request <> Some ""%string) as [Hf1 Hf2].
    { destruct Hs as (Hf & Ht & _). rewrite Hf. split; [discriminate|].
      intros [= ->]. discriminate. }
    split.
    + split; [|tauto]. intros Hst. exfalso.
      destruct (settleRange (range request) fileSize) as [sv|] eqn:Hsettle.
      * pose proof (respond_settled _ _ _ _ _ Hs Hsettle). lia.
      * rewrite Heq in Hst. discriminate.
    + split.
      * intros Hst.
        destruct (settleRange (range request) fileSize) as [sv|] eqn:Hsettle.
        { pose proof (respond_settled _ _ _ _ _ Hs Hsettle). lia. }
        apply settleRange_None in Hsettle as (c & h & Hr & Hp).
        exists fileName, fileSize, c, h. auto.
      * intros (f & n & c & h & Hs' & Hr & Hp).
        destruct (sized_unique _ _ _ _ _ _ Hs Hs') as [<- <-].
        rewrite Heq.
        rewrite (proj2 (settleRange_None _ _)) by eauto. reflexivity.
  - destruct (respond_unsized env request Hno) as [_ Hcases].
    split.
    + split; [|intros Hf; unfold respond;
                destruct Hf as [-> | ->]; reflexivity].
      destruct Hcases as [[_ Hf] | [H500 _]]; [auto|]. rewrite H500. discriminate.
    + split.
      * destruct Hcases as [[H ?] | [H ?]]; rewrite H; discriminate.
      * intros (f & n & c & h & Hs' & _). exfalso. exact (Hno _ _ Hs').
Qed.

Lemma fetched_unique {B} (env : Env B) (request : Request)
    f1 n1 sv1 r1 c1 f2 n2 sv2 r2 c2 :
  Fetched env request f1 n1 sv1 r1 c1 -> Fetched env request f2 n2 sv2 r2 c2 ->
  f1 = f2 /\ n1 = n2 /\ sv1 = sv2 /\ r1 = r2 /\ c1 = c2.
Proof.
  intros (Hs1 & Hv1 & Hg1 & Hb1) (Hs2 & Hv2 & Hg2 & Hb2).
  destruct (sized_unique _ _ _ _ _ _ Hs1 Hs2) as [<- <-].
  assert (sv1 = sv2) as <- by congruence.
  assert (r1 = r2) as <- by congruence.
  assert (c1 = c2) as <- by congruence. auto.
Qed.



End HandlerExits.

(** ** The streamed answer *)

Module HandlerServed.
Import Grammar.

Lemma baseHeaders_contentLength (ct cl cc origin : string) :
  baseHeaders ct cl cc origin !! "Content-Length"%string = Some cl.
Proof. vm_compute. reflexivity. Qed.

Lemma responseHeaders_contentLength {B} (env : Env B) fileName fileSize sv
    storageType :
  responseHeaders env fileName fileSize sv storageType
    !! "Content-Length"%string
  = Some (Js.numToString (servedEnd sv - servedStart sv + 1)).
Proof.
  unfold responseHeaders, whenb.
  destruct (isPartialContent sv); simpl;
    destruct (servedEnd sv <? fileSize - 1);
    rewrite ?lookup_insert_ne by discriminate;
    apply baseHeaders_contentLength.
Qed.

(** What is settled without a [Range] header. *)
Lemma settleRange_no_header (header : option string) (fileSize : Z) :
  header = None \/ header = Some ""%string ->
  settleRange header fileSize
  = Some (if fileSize <=? 1048577
          then mkServed 0 (fileSize - 1) false true
          else mkServed 0 (if fileSize <? 5 * 1024 * 1024 then 1024 * 1024
                           else if fileSize <? 15 * 1024 * 1024
                                then 2 * 1024 * 1024 else 3 * 1024 * 1024)
                        true true).
Proof.
  intros [-> | ->]; unfold settleRange;
    rewrite optimizeRange_first by reflexivity; cbn [start end_];
    destruct (Z.leb_spec fileSize 1048577);
    destruct (Z.ltb_spec fileSize (5 * 1024 * 1024));
    destruct (Z.ltb_spec fileSize (15 * 1024 * 1024)); try lia;
    repeat match goal with
           | |- context [Z.min ?a ?b] =>
               first [ rewrite (Z.min_l a b) by lia
                     | rewrite (Z.min_r a b) by lia ]
           end;
    f_equal; f_equal;
    first [ apply Z.ltb_irrefl | apply Z.ltb_lt; lia ].
Qed.

(** What is settled for a [Range] header. *)
Lemma settleRange_header (c : ascii) (h : string) (fileSize : Z) sv :
  settleRange (Some (String c h)) fileSize = Some sv ->
  exists r,
    parseRange (String c h) fileSize = Some r
    /\ sv = mkServed (start (optimizeRange r fileSize (start r =? 0)))
                     (end_ (optimizeRange r fileSize (start r =? 0)))
                     true (start r =? 0).
Proof.
  unfold settleRange. destruct (parseRange _ _) as [[s e]|]; [|discriminate].
  intros [= <-]. eexists. split; reflexivity.
Qed.

(** X5.  An answer carries [Content-Range] exactly when its status is
    206. *)
Theorem GET_contentRange_iff_206 {B} (env : Env B) (request : Request)
    (rateLimitMap : gmap string RateLimitEntry) :
  status (GET env request rateLimitMap).1 = 206
  <-> is_Some (headers (GET env request rateLimitMap).1
                 !! "Content-Range"%string).
Proof.
  cbn [GET fst].
  destruct (respond_inv env request)
    as [[Hempty Hst] | (fileName & fileSize & sv & out & content & Hserves)].
  - rewrite Hempty, lookup_empty. split; [lia|]. intros [v Hv]. discriminate.
  - rewrite (respond_serves _ _ _ _ _ _ _ Hserves). cbn [status headers].
    rewrite responseHeaders_contentRange.
    destruct (isPartialContent sv).
    + split; [eauto | reflexivity].
    + split; [discriminate|]. intros [v Hv]. discriminate.
Qed.

(** Whatever is settled for an object of positive size lies within it, and
    what is not partial is the whole object. *)
Lemma settleRange_within (header : option string) (fileSize : Z) sv :
  settleRange header fileSize = Some sv -> 0 < fileSize ->
  0 <= servedStart sv <= servedEnd sv
  /\ servedEnd sv <= fileSize - 1
  /\ (isPartialContent sv = false -> servedEnd sv = fileSize - 1).
Proof.
  intros Hsettle Hsize.
  destruct (isPartialContent sv) eqn:Hpartial.
  - destruct (settleRange_valid _ _ _ Hsettle Hpartial).
    repeat split; try lia; try discriminate.
  - destruct header as [[|c h]|].
    2: { apply settleRange_header in Hsettle as (r & _ & ->). discriminate. }
    all: rewrite settleRange_no_header in Hsettle by auto;
      destruct (fileSize <=? 1048577); injection Hsettle as <-;
      [simpl; lia | discriminate].
Qed.

(** X6.  For an object of positive size, the range asked of the storage
    lies within the object, [0 <= start <= end <= fileSize - 1], and
    [Content-Length] is the number of bytes of that range, between 1 and
    [fileSize]. *)
Theorem GET_served_within_object {B} (env : Env B) (request : Request)
    (rateLimitMap : gmap string RateLimitEntry) (fileName : string)
    (fileSize : Z) (sv : Served) (response : RangeOutput B) (content : B) :
  Serves env request fileName fileSize sv response content ->
  0 < fileSize ->
  0 <= servedStart sv <= servedEnd sv
  /\ servedEnd sv <= fileSize - 1
  /\ 1 <= servedEnd sv - servedStart sv + 1 <= fileSize
  /\ headers (GET env request rateLimitMap).1 !! "Content-Length"%string
     = Some (Js.numToString (servedEnd sv - servedStart sv + 1)).
Proof.
  intros Hserves Hsize. cbn [GET fst].
  rewrite (respond_serves _ _ _ _ _ _ _ Hserves). cbn [headers].
  rewrite responseHeaders_contentLength.
  destruct Hserves as (_ & _ & _ & _ & Hsettle & _).
  destruct (settleRange_within _ _ _ Hsettle Hsize) as (Hv1 & Hv2 & _).
  repeat split; try lia.
Qed.

Lemma GET_served_within_object_witness :
  0 <= servedStart (mkServed 2097152 2621439 true false)
    <= servedEnd (mkServed 2097152 2621439 true false)
  /\ servedEnd (mkServed 2097152 2621439 true false) <= 4194304 - 1
  /\ 1 <= servedEnd (mkServed 2097152 2621439 true false)
          - servedStart (mkServed 2097152 2621439 true false) + 1 <= 4194304
  /\ headers (GET (oneObject 4194304)
                  (mkRequest (Some "a.mp3"%string)
                             (Some "bytes=2097152-2097663"%string)) ∅).1
       !! "Content-Length"%string
     = Some (Js.numToString
               (servedEnd (mkServed 2097152 2621439 true false)
                - servedStart (mkServed 2097152 2621439 true false) + 1)).
Proof.
  apply (GET_served_within_object (oneObject 4194304)
           (mkRequest (Some "a.mp3"%string)
                      (Some "bytes=2097152-2097663"%string)) ∅ "a.mp3"
           4194304 (mkServed 2097152 2621439 true false)
           (mkRangeOutput (Some tt) None) tt).
  - serves_by_computation.
  - lia.
Defined.



(** X8.  A [Range] header that starts at byte 0 is served the bytes a
    request without [Range] header is served: the requested end is
    discarded, whether it lies before or after the end of the initial
    chunk.  The answer to the header is always partial. *)
Theorem settleRange_from_zero (c : ascii) (h : string) (fileSize : Z)
    (r : ByteRange) :
  parseRange (String c h) fileSize = Some r ->
  start r = 0 ->
  exists e p,
    settleRange (Some (String c h)) fileSize = Some (mkServed 0 e true true)
    /\ settleRange None fileSize = Some (mkServed 0 e p true).
Proof.
  intros Hparse Hzero. unfold settleRange. rewrite Hparse.
  destruct r as [s e]. cbn [start end_] in *. subst s.
  cbn [Z.eqb].
  rewrite (optimizeRange_first (mkRange 0 e) fileSize eq_refl).
  rewrite (optimizeRange_first (mkRange 0 (fileSize - 1)) fileSize eq_refl).
  cbn [start end_].
  eexists _, _. split; reflexivity.
Qed.

Lemma settleRange_from_zero_witness :
  exists e p,
    settleRange (Some "bytes=0-99"%string) 4194304
    = Some (mkServed 0 e true true)
    /\ settleRange None 4194304 = Some (mkServed 0 e p true).
Proof.
  apply (settleRange_from_zero "b" "ytes=0-99" 4194304 (mkRange 0 99));
    reflexivity.
Defined.

(** The hint [GET] sets is [nextRangeHint] of what it served. *)
Lemma responseHeaders_nextRangeHint {B} (env : Env B) fileName fileSize sv
    storageType :
  responseHeaders env fileName fileSize sv storageType
    !! "X-Next-Range"%string
  = nextRangeHint sv fileSize.
Proof. rewrite responseHeaders_nextRange. reflexivity. Qed.

(** The hint, sent back as [Range] header, settles to a range that starts
    right after the one served and reaches at least as far as hinted. *)
Lemma nextRangeHint_settles (fileSize : Z) sv (hint : string) :
  0 <= servedStart sv <= servedEnd sv ->
  nextRangeHint sv fileSize = Some hint ->
  exists sv',
    settleRange (Some hint) fileSize = Some sv'
    /\ servedStart sv' = servedEnd sv + 1
    /\ servedEnd sv < servedEnd sv' /\ servedEnd sv' <= fileSize - 1
    /\ isPartialContent sv' = true /\ isFirstRequest sv' = false.
Proof.
  intros Hvalid. unfold nextRangeHint.
  destruct (isPartialContent sv); [|discriminate].
  destruct (Z.ltb_spec (servedEnd sv) (fileSize - 1)) as [Hmore|]; [|discriminate].
  cbn [andb]. cbv zeta. intros [= <-].
  set (nextEnd := Z.min _ _).
  assert (servedEnd sv + 1 <= nextEnd <= fileSize - 1) as Hnext
    by (subst nextEnd; lia).
  assert (parseRange
            (String "b" ("ytes=" +:+ Js.numToString (servedEnd sv + 1)
                         +:+ "-" +:+ Js.numToString nextEnd)) fileSize
          = Some (mkRange (servedEnd sv + 1) nextEnd)) as Hparse.
  { apply (parseRange_rendered (Some (servedEnd sv + 1)) (Some nextEnd));
      simpl; lia. }
  change ("bytes=" +:+ ?x) with (String "b" ("ytes=" +:+ x)).
  unfold settleRange. rewrite Hparse. cbn [start end_].
  assert ((servedEnd sv + 1 =? 0) = false) as Hnz by (apply Z.eqb_neq; lia).
  rewrite Hnz.
  destruct (optimizeRange_steady_eq (mkRange (servedEnd sv + 1) nextEnd)
              fileSize false eq_refl) as (opt & Hopt & ->).
  cbn [start end_].
  eexists. split; [reflexivity|]. cbn [servedStart servedEnd
    isPartialContent isFirstRequest].
  destruct ((nextEnd - (servedEnd sv + 1) + 1 <? opt)
            && (nextEnd <? fileSize - 1)); cbn [start end_];
    repeat split; lia.
Qed.

(** X9.  Following the hint.  When a streamed answer carries
    [X-Next-Range], the request for the same file with that hint as [Range]
    header settles to a range that starts at the byte after the last one
    served, ends further on and within the object, and is handled by the
    steady-state policy; if the storage has these bytes, the handler has
    them in hand for that request too, and streams them when
    [new NextResponse] accepts the headers. *)
Theorem GET_hint_continues {B} (env : Env B) (request : Request)
    (rateLimitMap : gmap string RateLimitEntry) (fileName : string)
    (fileSize : Z) (sv : Served) (response : RangeOutput B) (content : B)
    (hint : string) :
  Serves env request fileName fileSize sv response content ->
  headers (GET env request rateLimitMap).1 !! "X-Next-Range"%string
  = Some hint ->
  exists sv',
    settleRange (Some hint) fileSize = Some sv'
    /\ servedStart sv' = servedEnd sv + 1
    /\ servedEnd sv < servedEnd sv' /\ servedEnd sv' <= fileSize - 1
    /\ isFirstRequest sv' = false
    /\ forall response' content',
         getFileRange env fileName (servedStart sv') (servedEnd sv')
         = Returned (Some response') ->
         Body response' = Some content' ->
         Fetched env (mkRequest (file request) (Some hint)) fileName fileSize
                 sv' response' content'
         /\ (acceptsHeaders env
               (responseHeaders env fileName fileSize sv'
                                (ContentType response')) = true ->
             Serves env (mkRequest (file request) (Some hint)) fileName
                    fileSize sv' response' content').
Proof.
  intros Hserves. cbn [GET fst].
  rewrite (respond_serves _ _ _ _ _ _ _ Hserves). cbn [headers].
  rewrite responseHeaders_nextRangeHint. intros Hhint.
  pose proof Hserves as (Hfile & Hname & Hmeta & Hnz & Hsettle & _).
  assert (isPartialContent sv = true) as Hpartial.
  { unfold nextRangeHint in Hhint.
    destruct (isPartialContent sv); [reflexivity | discriminate]. }
  destruct (settleRange_valid _ _ _ Hsettle Hpartial) as [Hvalid _].
  destruct (nextRangeHint_settles fileSize sv hint Hvalid Hhint)
    as (sv' & Hsettle' & H1 & H2 & H3 & _ & H5).
  exists sv'. repeat split; try assumption.
Qed.

Lemma GET_hint_continues_witness :
  exists sv',
    settleRange (Some "bytes=2621440-3145727"%string) 4194304 = Some sv'
    /\ servedStart sv' = servedEnd (mkServed 2097152 2621439 true false) + 1
    /\ servedEnd (mkServed 2097152 2621439 true false) < servedEnd sv'
    /\ servedEnd sv' <= 4194304 - 1
    /\ isFirstRequest sv' = false
    /\ forall response' content',
         getFileRange (oneObject 4194304) "a.mp3"
                      (servedStart sv') (servedEnd sv')
         = Returned (Some response') ->
         Body response' = Some content' ->
         Fetched (oneObject 4194304)
                 (mkRequest
                    (file (mkRequest (Some "a.mp3"%string)
                                     (Some "bytes=2097152-2097663"%string)))
                    (Some "bytes=2621440-3145727"%string))
                 "a.mp3" 4194304 sv' response' content'
         /\ (acceptsHeaders (oneObject 4194304)
               (responseHeaders (oneObject 4194304) "a.mp3" 4194304 sv'
                                (ContentType response')) = true ->
             Serves (oneObject 4194304)
                    (mkRequest
                       (file (mkRequest (Some "a.mp3"%string)
                                        (Some "bytes=2097152-2097663"%string)))
                       (Some "bytes=2621440-3145727"%string))
                    "a.mp3" 4194304 sv' response' content').
Proof.
  apply (GET_hint_continues (oneObject 4194304)
           (mkRequest (Some "a.mp3"%string)
                      (Some "bytes=2097152-2097663"%string)) ∅ "a.mp3"
           4194304 (mkServed 2097152 2621439 true false)
           (mkRangeOutput (Some tt) None) tt).
  - serves_by_computation.
  - vm_compute. reflexivity.
Defined.

(** A client that follows the hints, from a request whose range settles,
    with fuel for the bytes still ahead. *)
Lemma followHints_run (fileSize : Z) (fuel : nat) :
  0 < fileSize ->
  forall (range : option string) sv,
    settleRange range fileSize = Some sv ->
    fileSize - 1 - servedEnd sv < Z.of_nat fuel ->
    exists rest,
      followHints fuel range fileSize = sv :: rest
      /\ (forall i a b,
            (sv :: rest) !! i = Some a -> (sv :: rest) !! S i = Some b ->
            servedStart b = servedEnd a + 1)
      /\ (exists z, last (sv :: rest) = Some z /\ servedEnd z = fileSize - 1).
Proof.
  intros Hsize. induction fuel as [|fuel IH]; intros range sv Hsettle Hfuel.
  { destruct (settleRange_within _ _ _ Hsettle Hsize). lia. }
  destruct (settleRange_within _ _ _ Hsettle Hsize) as (Hvalid & Hle & Hwhole).
  cbn [followHints]. rewrite Hsettle.
  destruct (nextRangeHint sv fileSize) as [hint|] eqn:Hhint.
  - destruct (nextRangeHint_settles fileSize sv hint Hvalid Hhint)
      as (sv' & Hsettle' & Hstart & Hgrow & Hle' & _).
    destruct (IH (Some hint) sv' Hsettle' ltac:(lia))
      as (rest & Hrun & Hchain & z & Hlast & Hz).
    exists (sv' :: rest). rewrite Hrun. split; [reflexivity|]. split.
    + intros [|i] a b Ha Hb.
      * cbn in Ha, Hb. injection Ha as <-. injection Hb as <-. exact Hstart.
      * exact (Hchain i a b Ha Hb).
    + exists z. split; [exact Hlast | exact Hz].
  - exists []. split; [reflexivity|]. split.
    + intros [|i] a b Ha Hb; discriminate Hb.
    + exists sv. split; [reflexivity|].
      unfold nextRangeHint in Hhint.
      destruct (isPartialContent sv); [|auto].
      destruct (Z.ltb_spec (servedEnd sv) (fileSize - 1)); [discriminate|lia].
Qed.

(** X10.  A client that follows the hints receives the object to its end,
    each byte once.  From a request whose range settles to [sv], sending
    each [X-Next-Range] hint back as the next [Range] header: the first
    range is [sv], every further range starts at the byte after the
    previous one ended, and with at most [fileSize] requests the last range
    ends at [fileSize - 1]. *)
Theorem followHints_reaches_end (fileSize : Z) (range : option string)
    (sv : Served) (fuel : nat) :
  0 < fileSize ->
  settleRange range fileSize = Some sv ->
  fileSize <= Z.of_nat fuel ->
  let ranges := followHints fuel range fileSize in
  head ranges = Some sv
  /\ (forall i a b,
        ranges !! i = Some a -> ranges !! S i = Some b ->
        servedStart b = servedEnd a + 1)
  /\ (exists z, last ranges = Some z /\ servedEnd z = fileSize - 1).
Proof.
  intros Hsize Hsettle Hfuel. cbv zeta.
  destruct (settleRange_within _ _ _ Hsettle Hsize) as (Hvalid & _).
  destruct (followHints_run fileSize fuel Hsize range sv Hsettle ltac:(lia))
    as (rest & -> & Hchain & Hlast).
  split; [reflexivity|]. split; assumption.
Qed.

Lemma followHints_reaches_end_witness :
  let ranges := followHints 100 (Some "bytes=10-19"%string) 100 in
  head ranges = Some (mkServed 10 99 true false)
  /\ (forall i a b,
        ranges !! i = Some a -> ranges !! S i = Some b ->
        servedStart b = servedEnd a + 1)
  /\ (exists z, last ranges = Some z /\ servedEnd z = 100 - 1).
Proof.
  apply (followHints_reaches_end 100 (Some "bytes=10-19"%string)
           (mkServed 10 99 true false) 100).
  - lia.
  - reflexivity.
  - lia.
Defined.

Example followHints_4MB :
  (fun sv => (servedStart sv, servedEnd sv))
    <$> followHints 10 None 4194304
  = [(0, 1048576); (1048577, 2097153); (2097154, 3145730);
     (3145731, 4194303)].
Proof. vm_compute. reflexivity. Qed.

End HandlerServed.

(** ** More on the rate limiter *)

Section RateLimiterMore.
Implicit Types (m : gmap string RateLimitEntry) (e : RateLimitEntry).
Implicit Types (id who : string).

Lemma cleanup_lookup now m id :
  cleanupRateLimit now m !! id
  = match m !! id with
    | Some e => if decide (now <= resetTime e) then Some e else None
    | None => None
    end.
Proof.
  destruct (m !! id) as [e|] eqn:Hm.
  - destruct (decide (now <= resetTime e)) as [Hlive | Hstale].
    + apply cleanup_lookup_Some. auto.
    + destruct (cleanupRateLimit now m !! id) as [e'|] eqn:Hc; [|reflexivity].
      apply cleanup_lookup_Some in Hc as [Hc Hlive].
      assert (e' = e) as -> by congruence. contradiction.
  - apply cleanup_lookup_None, Hm.
Qed.

(** X11.  A call is refused exactly when the identifier has an entry that
    is live at both clock readings and counts 30 calls or more; a refused
    call only sweeps the table.  Refused or not, the identifier has an
    entry afterwards. *)
Theorem checkRateLimit_refusal nowCleanup now id m :
  ((checkRateLimit nowCleanup now id m).1 = false
   <-> exists e, m !! id = Some e /\ nowCleanup <= resetTime e
                 /\ now <= resetTime e /\ 30 <= count e)
  /\ ((checkRateLimit nowCleanup now id m).1 = false ->
      (checkRateLimit nowCleanup now id m).2 = cleanupRateLimit nowCleanup m)
  /\ is_Some ((checkRateLimit nowCleanup now id m).2 !! id).
Proof.
  destruct (m !! id) as [e|] eqn:Hm.
  2: { rewrite (checkRateLimit_fresh _ _ _ _ Hm). cbn [fst snd].
       split; [split; [discriminate | intros (e & H & _); discriminate]|].
       split; [discriminate|]. rewrite lookup_insert_eq. eauto. }
  destruct (Z.lt_ge_cases (resetTime e) now) as [Hlate | Hnow].
  { rewrite (checkRateLimit_expired _ _ _ _ _ Hm Hlate). cbn [fst snd].
    split; [split; [discriminate|]|].
    - intros (e' & He' & _ & Hn & _). assert (e' = e) as -> by congruence. lia.
    - split; [discriminate|]. rewrite lookup_insert_eq. eauto. }
  destruct (Z.lt_ge_cases (resetTime e) nowCleanup) as [Hswept | Hclean].
  { unfold checkRateLimit. rewrite cleanup_lookup, Hm.
    rewrite decide_False by lia. cbn [fst snd].
    split; [split; [discriminate|]|].
    - intros (e' & He' & Hc & _). assert (e' = e) as -> by congruence. lia.
    - split; [discriminate|]. rewrite lookup_insert_eq. eauto. }
  destruct (Z.lt_ge_cases (count e) 30) as [Hunder | Hfull].
  - rewrite (checkRateLimit_admit _ _ _ _ _ Hm) by lia. cbn [fst snd].
    split; [split; [discriminate|]|].
    + intros (e' & He' & _ & _ & Hc). assert (e' = e) as -> by congruence. lia.
    + split; [discriminate|]. rewrite lookup_insert_eq. eauto.
  - rewrite (checkRateLimit_reject _ _ _ _ _ Hm) by lia. cbn [fst snd].
    split; [split; [intros _; exists e; auto | reflexivity]|].
    split; [reflexivity|].
    rewrite cleanup_lookup, Hm, decide_True by lia. eauto.
Qed.

(** X12.  Identifiers do not interfere.  Whether a call is admitted and the
    entry it leaves for its identifier depend on the table only through
    that identifier's entry; the entries of the other identifiers are only
    swept: each is as before, or gone if its [resetTime] lies before the
    first clock reading. *)
Theorem checkRateLimit_isolation nowCleanup now id m m' :
  (m !! id = m' !! id ->
   (checkRateLimit nowCleanup now id m).1
   = (checkRateLimit nowCleanup now id m').1
   /\ (checkRateLimit nowCleanup now id m).2 !! id
      = (checkRateLimit nowCleanup now id m').2 !! id)
  /\ (forall who, who <> id ->
        (checkRateLimit nowCleanup now id m).2 !! who
        = match m !! who with
          | Some e => if decide (nowCleanup <= resetTime e) then Some e else None
          | None => None
          end).
Proof.
  split.
  - intros Hsame. unfold checkRateLimit.
    rewrite !cleanup_lookup, <- Hsame.
    destruct (m !! id) as [e|] eqn:Hm;
      [|cbn [fst snd]; rewrite !lookup_insert_eq; auto].
    destruct (decide (nowCleanup <= resetTime e));
      [|cbn [fst snd]; rewrite !lookup_insert_eq; auto].
    destruct (now >? resetTime e);
      [cbn [fst snd]; rewrite !lookup_insert_eq; auto|].
    destruct (count e >=? 30); cbn [fst snd].
    + rewrite !cleanup_lookup, <- Hsame, Hm. auto.
    + rewrite !lookup_insert_eq. auto.
  - intros who Hne. rewrite <- cleanup_lookup.
    destruct (checkRateLimit_table nowCleanup now id m) as [-> | [e ->]];
      [reflexivity|].
    apply lookup_insert_ne. congruence.
Qed.

Lemma checkRateLimit_isolation_witness :
  (checkRateLimit 5 5 "a" (<["a"%string := mkEntry 30 10]> ∅)).1
  = (checkRateLimit 5 5 "a"
       (<["b"%string := mkEntry 1 20]> (<["a"%string := mkEntry 30 10]> ∅))).1
  /\ (checkRateLimit 5 5 "a" (<["a"%string := mkEntry 30 10]> ∅)).2
       !! "a"%string
     = (checkRateLimit 5 5 "a"
          (<["b"%string := mkEntry 1 20]> (<["a"%string := mkEntry 30 10]> ∅))).2
         !! "a"%string.
Proof.
  apply (proj1 (checkRateLimit_isolation 5 5 "a"
                  (<["a"%string := mkEntry 30 10]> ∅)
                  (<["b"%string := mkEntry 1 20]>
                     (<["a"%string := mkEntry 30 10]> ∅)))).
  vm_compute. reflexivity.
Defined.

Lemma cleanup_countsInRange now m :
  countsInRange m -> countsInRange (cleanupRateLimit now m).
Proof.
  intros Hm id e He. apply cleanup_lookup_Some in He as [He _].
  exact (Hm id e He).
Qed.

Lemma checkRateLimit_countsInRange nowCleanup now id m :
  countsInRange m -> countsInRange (checkRateLimit nowCleanup now id m).2.
Proof.
  intros Hm. pose proof (cleanup_countsInRange nowCleanup m Hm) as Hswept.
  unfold checkRateLimit.
  destruct (cleanupRateLimit nowCleanup m !! id) as [cur|] eqn:Hcur.
  - pose proof (Hswept id cur Hcur) as Hcount.
    destruct (now >? resetTime cur); cbn [snd].
    + intros who e. destruct (decide (who = id)) as [-> | Hne].
      * rewrite lookup_insert_eq. intros [= <-]. simpl. lia.
      * rewrite lookup_insert_ne by congruence. apply Hswept.
    + destruct (Z.geb_spec (count cur) 30); cbn [snd]; [exact Hswept|].
      intros who e. destruct (decide (who = id)) as [-> | Hne].
      * rewrite lookup_insert_eq. intros [= <-]. simpl. lia.
      * rewrite lookup_insert_ne by congruence. apply Hswept.
  - cbn [snd]. intros who e. destruct (decide (who = id)) as [-> | Hne].
    + rewrite lookup_insert_eq. intros [= <-]. simpl. lia.
    + rewrite lookup_insert_ne by congruence. apply Hswept.
Qed.

Lemma checkRateLimitCalls_countsInRange (calls : list (Z * Z * string)) m :
  countsInRange m -> countsInRange (checkRateLimitCalls calls m).2.
Proof.
  revert m. induction calls as [|[[nowCleanup now] who] calls IH]; intros m Hm.
  - exact Hm.
  - rewrite checkRateLimitCalls_cons. cbv zeta. cbn [snd].
    apply IH, checkRateLimit_countsInRange, Hm.
Qed.

(** X13.  In every table that calls of [checkRateLimit] build from the
    empty one, whatever the identifiers and clock readings, every entry
    counts at least 1 and at most 30 calls. *)
Theorem rateLimitMap_counts (calls : list (Z * Z * string)) id e :
  (checkRateLimitCalls calls ∅).2 !! id = Some e -> 1 <= count e <= 30.
Proof.
  apply (checkRateLimitCalls_countsInRange calls ∅).
  intros who e' H. rewrite lookup_empty in H. discriminate.
Qed.

Lemma rateLimitMap_counts_witness : 1 <= count (mkEntry 30 60000) <= 30.
Proof.
  apply (rateLimitMap_counts (replicate 40 (0, 0, "a"%string)) "a"
           (mkEntry 30 60000)).
  vm_compute. reflexivity.
Defined.

(** X14.  Sweeping only removes entries, and sweeping twice is sweeping
    once at the later of the two times. *)
Theorem cleanupRateLimit_twice (now now' : Z) m :
  cleanupRateLimit now m ⊆ m
  /\ cleanupRateLimit now' (cleanupRateLimit now m)
     = cleanupRateLimit (Z.max now now') m.
Proof.
  split; [apply map_filter_subseteq|].
  apply map_eq. intros id. rewrite !cleanup_lookup.
  destruct (m !! id) as [e|]; [|reflexivity].
  destruct (decide (now <= resetTime e)), (decide (now' <= resetTime e)),
           (decide (Z.max now now' <= resetTime e));
    try reflexivity; lia.
Qed.

End RateLimiterMore.

(** ** Content type and cross-origin headers *)

Module HeaderFacts.

Lemma lastSegment_noDot (acc ext : string) :
  noDot ext = true -> lastSegment acc ext = acc +:+ ext.
Proof.
  revert acc. induction ext as [|c ext IH]; intros acc H.
  - simpl. rewrite string_app_nil_r. reflexivity.
  - simpl in H. apply andb_true_iff in H as [Hc Hext].
    apply negb_true_iff in Hc. simpl. rewrite Hc, (IH _ Hext).
    rewrite string_app_assoc. reflexivity.
Qed.

Lemma lastSegment_after_dot (acc base ext : string) :
  noDot ext = true -> lastSegment acc (base +:+ "." +:+ ext) = ext.
Proof.
  intros Hext. revert acc. induction base as [|c base IH]; intros acc.
  - change ("" +:+ "." +:+ ext) with (String "." ext). simpl.
    apply (lastSegment_noDot "" ext Hext).
  - rewrite string_app_cons. simpl. destruct (Ascii.eqb c "."); apply IH.
Qed.

Lemma mimeTypes_lookup (ext mime : string) :
  mimeTypes !! ext = Some mime ->
  Js.truthy ext = true /\ Js.truthy mime = true.
Proof.
  intros H. apply elem_of_list_to_map_2 in H.
  repeat (apply elem_of_cons in H as [[= -> ->] | H]; [split; reflexivity|]).
  apply elem_of_nil in H. contradiction.
Qed.

Lemma orElse_truthy (s d : string) :
  Js.truthy d = true -> Js.truthy (orElse s d) = true.
Proof. intros Hd. unfold orElse. destruct (Js.truthy s) eqn:Hs; assumption. Qed.

Lemma contentTypeOf_truthy (fileName : string) (storageType : option string) :
  Js.truthy (contentTypeOf fileName storageType) = true.
Proof.
  unfold contentTypeOf.
  destruct (mimeTypes !! _) as [mime|] eqn:Hm.
  - apply mimeTypes_lookup in Hm as [Hk Hv]. rewrite Hk, Hv. exact Hv.
  - apply orElse_truthy. reflexivity.
Qed.

Lemma baseHeaders_contentType (ct cl cc origin : string) :
  baseHeaders ct cl cc origin !! "Content-Type"%string = Some ct.
Proof. vm_compute. reflexivity. Qed.


Lemma responseHeaders_base {B} (env : Env B) fileName fileSize sv storageType
    (name : string) :
  name <> "Content-Range"%string -> name <> "X-Next-Range"%string ->
  name <> "Link"%string ->
  responseHeaders env fileName fileSize sv storageType !! name
  = baseHeaders (contentTypeOf fileName storageType)
                (Js.numToString (servedEnd sv - servedStart sv + 1))
                (cacheControl (isFirstRequest sv) fileSize
                              (isPartialContent sv))
                (orElse (getURL env) "*") !! name.
Proof.
  intros H1 H2 H3. unfold responseHeaders, whenb.
  destruct (isPartialContent sv); simpl;
    destruct (servedEnd sv <? fileSize - 1);
    rewrite ?lookup_insert_ne by congruence; reflexivity.
Qed.

(** X15.  The [Content-Type] of a streamed answer is never empty, and for
    a file name that ends in a dot and one of the extensions of the table,
    in whatever letter case, it is the type of the table, whatever type the
    storage reports. *)
Theorem GET_contentType {B} (env : Env B) (request : Request)
    (rateLimitMap : gmap string RateLimitEntry) (fileName : string)
    (fileSize : Z) (sv : Served) (response : RangeOutput B) (content : B) :
  Serves env request fileName fileSize sv response content ->
  exists contentType,
    headers (GET env request rateLimitMap).1 !! "Content-Type"%string
    = Some contentType
    /\ Js.truthy contentType = true
    /\ forall base ext mime,
         fileName = base +:+ "." +:+ ext -> noDot ext = true ->
         mimeTypes !! toLowerCase ext = Some mime ->
         contentType = mime.
Proof.
  intros Hserves. cbn [GET fst].
  rewrite (respond_serves _ _ _ _ _ _ _ Hserves). cbn [headers].
  rewrite responseHeaders_base by discriminate.
  rewrite baseHeaders_contentType. eexists. split; [reflexivity|].
  split; [apply contentTypeOf_truthy|].
  intros base ext mime -> Hext Hmime. unfold contentTypeOf.
  rewrite (lastSegment_after_dot "" base ext Hext), Hmime.
  apply mimeTypes_lookup in Hmime as [-> ->]. reflexivity.
Qed.

Lemma GET_contentType_witness :
  exists contentType,
    headers (GET (oneObject 1000) (mkRequest (Some "Owl.WAV"%string) None) ∅).1
      !! "Content-Type"%string
    = Some contentType
    /\ Js.truthy contentType = true
    /\ forall base ext mime,
         "Owl.WAV"%string = base +:+ "." +:+ ext -> noDot ext = true ->
         mimeTypes !! toLowerCase ext = Some mime ->
         contentType = mime.
Proof.
  apply (GET_contentType (oneObject 1000)
           (mkRequest (Some "Owl.WAV"%string) None) ∅ "Owl.WAV" 1000
           (mkServed 0 999 false true) (mkRangeOutput (Some tt) None) tt).
  serves_by_computation.
Defined.

Example contentTypeOf_wav :
  contentTypeOf "Owl.WAV" (Some "application/octet-stream"%string)
  = "audio/wav"%string.
Proof. vm_compute. reflexivity. Qed.

Example contentTypeOf_unknown :
  contentTypeOf "owl.aiff" (Some "audio/aiff"%string) = "audio/aiff"%string
  /\ contentTypeOf "owl" None = "audio/mpeg"%string.
Proof. split; vm_compute; reflexivity. Qed.


End HeaderFacts.

(** ** The route over the R2 storage service *)

Module R2Facts.

(** Where the generic answer comes from. *)
Lemma respond_internal_error {B} (env : Env B) (request : Request) :
  body (respond env request) = Json "Internal server error" ->
  (exists fileName,
     file request = Some fileName /\ getfileMediaInfo env fileName = Thrown)
  \/ (exists fileName fileSize sv,
        Sized env request fileName fileSize
        /\ settleRange (range request) fileSize = Some sv
        /\ getFileRange env fileName (servedStart sv) (servedEnd sv) = Thrown)
  \/ (exists fileName fileSize sv response content,
        Fetched env request fileName fileSize sv response content
        /\ acceptsHeaders env
             (responseHeaders env fileName fileSize sv (ContentType response))
           = false).
Proof.
  destruct (HandlerExits.sized_dec env request)
    as [(fileName & fileSize & Hs) | Hno].
  - rewrite (HandlerExits.respond_sized env request _ _ Hs).
    destruct (settleRange _ _) as [sv|] eqn:Hsettle; [|discriminate].
    destruct (getFileRange _ _ _ _) as [[out|]|] eqn:Hget; try discriminate.
    + destruct (Body out) as [content|] eqn:Hbody; [|discriminate].
      destruct (acceptsHeaders _ _) eqn:Hacc; [discriminate|]. intros _.
      right. right. exists fileName, fileSize, sv, out, content.
      split; [exact (conj Hs (conj Hsettle (conj Hget Hbody))) | exact Hacc].
    + intros _. right. left. exists fileName, fileSize, sv. auto.
  - unfold respond.
    destruct (file request) as [[|c f]|] eqn:Hfile; try discriminate.
    destruct (getfileMediaInfo env _) as [[meta|]|] eqn:Hmeta;
      [| discriminate | intros _; left; eauto].
    cbn [mbind option_bind].
    destruct (ContentLength meta) as [n|] eqn:Hlen; [|discriminate].
    destruct (Z.eq_dec n 0) as [-> | Hnz]; [discriminate|].
    exfalso. apply (Hno (String c f) n).
    repeat split; try assumption. eauto.
Qed.

(** X17.  Over the R2 storage service no failure of the S3 client reaches
    the [catch] clause of [GET]: the generic answer [Internal server error]
    is given only when the bytes are in hand and [new NextResponse] does
    not accept a header value.  A rejected metadata call is answered with
    500 [Unable to determine file size], a rejected call for the bytes with
    404 [Audio file not found]. *)
Theorem R2_rejections {B} (s3Client : R2.GetObjectCommand -> R2.Sent B)
    (siteURL : string) (encode : string -> string)
    (validate : string -> bool) (request : Request)
    (rateLimitMap : gmap string RateLimitEntry) :
  let env := audioStorageR2 s3Client siteURL encode validate in
  (body (GET env request rateLimitMap).1 = Json "Internal server error" ->
   exists fileName fileSize sv response content,
     Fetched env request fileName fileSize sv response content
     /\ acceptsHeaders env
          (responseHeaders env fileName fileSize sv (ContentType response))
        = false)
  /\ (forall fileName,
        file request = Some fileName -> Js.truthy fileName = true ->
        s3Client (R2.mkCommand "audio-files" fileName None) = R2.Rejected ->
        (GET env request rateLimitMap).1
        = jsonError 500 "Unable to determine file size")
  /\ (forall fileName fileSize sv,
        Sized env request fileName fileSize ->
        settleRange (range request) fileSize = Some sv ->
        s3Client (R2.mkCommand "audio-files" fileName
                    (Some (Grammar.rangeText
                             (Js.numToString (servedStart sv))
                             (Js.numToString (servedEnd sv)))))
        = R2.Rejected ->
        (GET env request rateLimitMap).1
        = jsonError 404 "Audio file not found").
Proof.
  cbv zeta. cbn [GET fst]. split; [|split].
  - intros Hbody.
    destruct (respond_internal_error _ _ Hbody)
      as [(f & _ & Hthrown) | [(f & n & sv & _ & _ & Hthrown) | H]];
      [| | exact H]; exfalso; revert Hthrown;
      cbn [audioStorageR2 getfileMediaInfo getFileRange];
      unfold R2.getfileMediaInfo, R2.getFileRange;
      destruct (s3Client _); discriminate.
  - intros fileName Hfile Hname Hrej. unfold respond. rewrite Hfile.
    destruct fileName as [|c f]; [discriminate|].
    cbn [audioStorageR2 getfileMediaInfo]. unfold R2.getfileMediaInfo.
    unfold R2.bucketName. rewrite Hrej. reflexivity.
  - intros fileName fileSize sv Hsized Hsettle Hrej.
    rewrite (HandlerExits.respond_sized _ _ _ _ Hsized), Hsettle.
    cbn [audioStorageR2 getFileRange]. unfold R2.getFileRange.
    unfold R2.bucketName. unfold Grammar.rangeText in Hrej. rewrite Hrej.
    reflexivity.
Qed.

Lemma R2_rejections_witness :
  (GET (audioStorageR2 (fun _ => @R2.Rejected unit) "" (fun s => s)
                       plainHeaderValue)
       (mkRequest (Some "a.mp3"%string) None) ∅).1
  = jsonError 500 "Unable to determine file size".
Proof.
  apply (proj1 (proj2 (R2_rejections (fun _ => @R2.Rejected unit) ""
                         (fun s => s) plainHeaderValue
                         (mkRequest (Some "a.mp3"%string) None) ∅))
           "a.mp3"%string);
    reflexivity.
Defined.

(** A content type with a line break in it: the storage has the bytes and
    the answer is the generic 500. *)
Example R2_invalid_contentType :
  (GET (audioStorageR2
          (fun _ => R2.Resolved
                      (R2.mkOutput (Some 1000) (Some tt)
                                   (Some (String "010" "x"))))
          "" (fun s => s) plainHeaderValue)
       (mkRequest (Some "a"%string) None) ∅).1
  = jsonError 500 "Internal server error".
Proof. vm_compute. reflexivity. Qed.

Example R2_oneObject :
  status (GET (audioStorageR2 (oneObjectClient 4194304) "" (fun s => s)
                              plainHeaderValue)
              (mkRequest (Some "a.mp3"%string)
                         (Some "bytes=2097152-2097663"%string)) ∅).1
  = 206.
Proof. vm_compute. reflexivity. Qed.

End R2Facts.
